(** * orbital: the PUP container decoder (src/orbital/software/pup.cpp)

    A shallow embedding of [pup_decrypt] and of the [PupParser] class
    (constructor, [find], [find_info], [get], [get_blocked],
    [get_nonblocked]) together with the properties of the decoder that the
    specification states.

    Conventions.
    - A byte is a [Z]; a [Buffer] (std::vector<U08>) is a [list Z].
    - Fixed-width integers are [Z] with the wrap-around written out
      ([wrap64]).
    - C++ exceptions and undefined behaviour are results of type [exn]; the
      parser object and its stream are threaded through a state monad [M].
    - Collaborators whose code is not part of pup.cpp (the record layouts of
      pup.h, Botan's AES, the key vault of crypto_ps4.h, zlib) are
      interfaces, given as type classes.

    Contents.
    - The model: buffers, exceptions, the records of pup.h, the
      collaborators, [pup_decrypt], the monad, the stream, the parser.
    - The definitions the statements use.
    - Properties: the alignment masks and CBC; stand-ins for the
      collaborators and example archives; the Block Decryptor; the resolver;
      construction; the frame of [get]; the blocked path. *)

From Stdlib Require Import ZArith Lia Bool String.
From stdpp Require Import base list.

Local Open Scope Z_scope.

(** ** Bytes and buffers *)

Abbreviation Buffer := (list Z).

Definition wrap64 (x : Z) : Z := x mod 2 ^ 64.

(** [len] bytes of [b] starting at byte [off]. *)
Definition slice (off len : Z) (b : Buffer) : Buffer :=
  take (Z.to_nat len) (drop (Z.to_nat off) b).

(** [memcpy(&b[0], src, |src|)] restricted to the bytes [b] has. *)
Definition overwrite_prefix (src b : Buffer) : Buffer :=
  take (length b) src ++ drop (length src) b.

Definition xor_bytes (a b : Buffer) : Buffer := zip_with Z.lxor a b.

(** ** Exceptions and undefined behaviour *)

(** The conditions of the constructor's [assert]s, in source order. *)
Inductive assertion : Type :=
| A_magic | A_version | A_mode | A_endian | A_attr | A_no_JIG.

(** Where the model stops because the C++ gives the run no meaning from
    there on.  The state paired with such a result is the model's, not the
    program's: statements about what a run leaves behind are made of runs
    that do not end so. *)
Inductive undefined : Type :=
| UninitializedRead   (* a local array read before it was written *)
| OutOfBoundsRead     (* operator[], a reinterpret_cast or a source length past the end *)
| OutOfBoundsWrite.   (* memcpy past the end of the destination *)

Inductive exn : Type :=
| AssertionFailure (a : assertion)
| RuntimeError_Unimplemented      (* std::runtime_error("Unimplemented") *)
| OutOfRange_SegmentNotFound      (* std::out_of_range("PUP segment not found") *)
| StreamError                     (* raised by the stream collaborator *)
| CryptoError                     (* raised by the crypto collaborator *)
| Undefined (u : undefined).

Inductive result (A : Type) : Type :=
| Ok (a : A)
| Err (e : exn).
Arguments Ok {A} a.
Arguments Err {A} e.

(** The error taxonomy of the specification, read off what the code throws. *)
Inductive spec_error : Type :=
| FormatError | UnsupportedFeatureError | NotFoundError
| NotImplementedError | DecryptError | DecompressError.

Definition classify (e : exn) : option spec_error :=
  match e with
  | AssertionFailure A_no_JIG => Some UnsupportedFeatureError
  | AssertionFailure _ => Some FormatError
  | RuntimeError_Unimplemented => Some NotImplementedError
  | OutOfRange_SegmentNotFound => Some NotFoundError
  | CryptoError => Some DecryptError
  | StreamError | Undefined _ => None
  end.

(** ** The records of pup.h *)

(** Modelled from the spec: pup.h is not among the sources.  The header is
    the record of the fields pup.cpp reads. *)
Record PupHeader : Type := mkPupHeader {
  magic : Z; version : Z; mode : Z; endian : Z; attr : Z; flags : Z;
  hdr_size : Z; meta_size : Z }.

Record PupHeaderEx : Type := mkPupHeaderEx { segment_count : Z }.

(** Modelled from the spec: pup.h is not among the sources.  An entry is the
    record of what its accessors ([id()], [is_info()], [has_blocks()],
    [block_size()], ...) and its fields [offset], [file_size] return. *)
Record PupSegmentEntry : Type := mkPupSegmentEntry {
  id : Z;
  is_info : bool; has_blocks : bool; is_encrypted : bool;
  is_compressed : bool; is_signed : bool;
  has_digests : bool; has_extents : bool;
  offset : Z; file_size : Z; block_size : Z; block_count : Z }.

Record PupSegmentMeta : Type := mkPupSegmentMeta {
  data_key : Buffer; data_iv : Buffer }.

Record PupDigest : Type := mkPupDigest { digest : Buffer }.

Record PupExtent : Type := mkPupExtent { ext_offset : Z; ext_size : Z }.

(** Modelled from the spec: the byte layouts of pup.h ([sizeof] and the
    reinterpretation of raw bytes as a record) are not among the sources and
    are taken as an interface. *)
Class Layout : Type := {
  sizeof_PupHeader : Z;
  sizeof_PupHeaderEx : Z;
  sizeof_PupSegmentEntry : Z;
  sizeof_PupSegmentMeta : Z;
  sizeof_PupDigest : Z;
  sizeof_PupExtent : Z;
  as_PupHeader : Buffer -> PupHeader;
  as_PupHeaderEx : Buffer -> PupHeaderEx;
  as_PupSegmentEntry : Buffer -> PupSegmentEntry;
  as_PupSegmentMeta : Buffer -> PupSegmentMeta;
  as_PupDigest : Buffer -> PupDigest;
  as_PupExtent : Buffer -> PupExtent;
  (* the width of the unsigned type of PupExtent::size, in which the
     arithmetic on it is done *)
  extent_bits : Z;
  (* segment_count is an unsigned field *)
  segment_count_unsigned : forall b, 0 <= segment_count (as_PupHeaderEx b);
  (* U08 data_key[16], data_iv[16] *)
  meta_key_length : forall b, length (data_key (as_PupSegmentMeta b)) = 16%nat;
  meta_iv_length : forall b, length (data_iv (as_PupSegmentMeta b)) = 16%nat }.

Definition PUP_MAGIC : Z := 0x1D3D154F.
Definition LITTLE : Z := 1.
Definition JIG : Z := 1.

(** ** Collaborators *)

(** Botan's AES-128 on one 16-byte block, and the initialisation vector a
    CBC filter starts from when [get_cipher] is given none. *)
Class BlockCipher : Type := {
  aes_encrypt : Buffer -> Buffer -> Buffer;
  aes_decrypt : Buffer -> Buffer -> Buffer;
  default_iv : Buffer;
  aes_encrypt_length : forall k b, length (aes_encrypt k b) = 16%nat;
  aes_decrypt_length : forall k b, length (aes_decrypt k b) = 16%nat;
  default_iv_length : length default_iv = 16%nat }.

Inductive KeyType : Type := AES_128_CBC | NamedKey.

Record Key : Type := mkKey {
  key_type : KeyType; key_name : string; key_data : Buffer; key_iv : Buffer }.

(** Modelled from the spec: ps4Crypto() of orbital/crypto_ps4.h is not among
    the sources.  [vault_decrypt] works in place on [len] bytes, so it keeps
    the length; it may throw. *)
Class CryptoVault : Type := {
  vault_get : string -> Key;
  vault_decrypt : Key -> Buffer -> result Buffer;
  vault_decrypt_length : forall k b b',
    vault_decrypt k b = Ok b' -> length b' = length b }.

(** zlib's [uncompress(dest, &destLen, source, sourceLen)]: from the source
    bytes and the room at [dest], the status it returns and the bytes it
    wrote, never more than the room. *)
Class Zlib : Type := {
  uncompress : Buffer -> Z -> Z * Buffer;
  uncompress_bound : forall src room,
    Z.of_nat (length (snd (uncompress src room))) <= Z.max 0 room }.

Definition Z_OK : Z := 0.

(** ** Botan pipes: AES-128/CBC *)

Section Botan.
Context `{BlockCipher}.

(** "AES-128/CBC/NoPadding", decryption, over [n] whole blocks. *)
Fixpoint cbc_decrypt_blocks (n : nat) (key prev buf : Buffer) : Buffer :=
  match n with
  | O => []
  | S n' =>
      let c := take 16 buf in
      xor_bytes (aes_decrypt key c) prev
        ++ cbc_decrypt_blocks n' key c (drop 16 buf)
  end.

Definition cbc_decrypt (key iv buf : Buffer) : Buffer :=
  cbc_decrypt_blocks (length buf / 16) key iv buf.

Fixpoint cbc_encrypt_blocks (n : nat) (key prev buf : Buffer) : Buffer :=
  match n with
  | O => []
  | S n' =>
      let c := aes_encrypt key (xor_bytes (take 16 buf) prev) in
      c ++ cbc_encrypt_blocks n' key c (drop 16 buf)
  end.

(** PKCS#7, the padding of "AES-128/CBC" when none is named. *)
Definition pkcs7_pad (buf : Buffer) : Buffer :=
  let n := (16 - length buf mod 16)%nat in
  buf ++ replicate n (Z.of_nat n).

(** "AES-128/CBC", encryption, with no initialisation vector given. *)
Definition cbc_encrypt (key buf : Buffer) : Buffer :=
  let padded := pkcs7_pad buf in
  cbc_encrypt_blocks (length padded / 16) key default_iv padded.

(** The loop [for (i = 0; i < overflow; i++) buffer[size_aligned + i] ^=
    next_block[i]], [remaining] iterations from index [i]. *)
Fixpoint xor_tail (remaining i base : nat) (next_block : list (option Z))
    (buffer : Buffer) : result Buffer :=
  match remaining with
  | O => Ok buffer
  | S r =>
      match buffer !! (base + i)%nat with
      | None => Err (Undefined OutOfBoundsWrite)
      | Some b =>
          match mjoin (next_block !! i) with
          | None => Err (Undefined UninitializedRead)
          | Some k =>
              xor_tail r (S i) base next_block
                (<[(base + i)%nat := Z.lxor b k]> buffer)
          end
      end
  end.

(** A [U08 x[16]] local: sixteen cells, each written or not yet. *)
Definition uninit16 : list (option Z) := replicate 16 None.

Definition store16 (src : Buffer) (cells : list (option Z)) : list (option Z) :=
  take 16 (map Some src) ++ drop (length (take 16 src)) cells.

(** [pipe.write(prev_block, 16)]: reads all sixteen cells. *)
Definition load16 (cells : list (option Z)) : result Buffer :=
  match mapM (fun c : option Z => c) cells with
  | Some b => Ok b
  | None => Err (Undefined UninitializedRead)
  end.

(** [pup_decrypt(buffer, meta)].  The two pipes are CBC over the whole
    blocks written to them.  A buffer shorter than 16 bytes writes no block
    to the decryption pipe; what Botan's filter does with a message that
    short is not followed here. *)
Definition pup_decrypt (buffer : Buffer) (meta : PupSegmentMeta) : result Buffer :=
  let key := take 16 (data_key meta) in
  let iv := take 16 (data_iv meta) in
  let size := Z.of_nat (length buffer) in
  let size_aligned := Z.land size (Z.lnot 0xF) in
  let overflow := Z.land size 0xF in
  let prev_block :=
    if negb (overflow =? 0) && (16 <=? size_aligned)
    then store16 (slice (size_aligned - 16) 16 buffer) uninit16
    else uninit16 in
  let plain := cbc_decrypt key iv (slice 0 size_aligned buffer) in
  let buffer := overwrite_prefix (take (Z.to_nat size_aligned) plain) buffer in
  if negb (overflow =? 0) then
    match load16 prev_block with
    | Err e => Err e
    | Ok pb =>
        let next_block := store16 (cbc_encrypt key pb) uninit16 in
        xor_tail (Z.to_nat overflow) 0 (Z.to_nat size_aligned) next_block buffer
    end
  else Ok buffer.

(** The Block Decryptor in the words of the specification: an aligned
    prefix of [len - len mod 16] bytes decrypted with AES-128-CBC, and a
    tail of [len mod 16] bytes XORed with the start of the re-encrypted
    last aligned ciphertext block. *)
Definition block_decryptor_spec (key iv buffer : Buffer) : Buffer :=
  let len := length buffer in
  let tail_len := (len mod 16)%nat in
  let prefix_len := (len - tail_len)%nat in
  let prefix := take prefix_len buffer in
  let tail := drop prefix_len buffer in
  if (tail_len =? 0)%nat then cbc_decrypt key iv prefix
  else
    let captured := take 16 (drop (prefix_len - 16) buffer) in
    let keystream := take 16 (cbc_encrypt key captured) in
    cbc_decrypt key iv prefix ++ xor_bytes tail (take tail_len keystream).

End Botan.

(** ** State and exceptions *)

(** A computation over a mutable state [S] that returns or throws; the state
    survives a throw, as the stream object survives a C++ exception. *)
Definition M (S A : Type) : Type := S -> result A * S.

Definition ret {S A : Type} (a : A) : M S A := fun st => (Ok a, st).

Definition bind {S A B : Type} (m : M S A) (k : A -> M S B) : M S B :=
  fun st =>
    match m st with
    | (Ok a, st') => k a st'
    | (Err e, st') => (Err e, st')
    end.

Definition throw {S A : Type} (e : exn) : M S A := fun st => (Err e, st).

Definition lift {S A : Type} (r : result A) : M S A := fun st => (r, st).

Notation "x <- c ;; k" := (bind c (fun x => k))
  (at level 100, c at next level, right associativity).
Notation "c ;;; k" := (bind c (fun _ => k))
  (at level 100, right associativity).

(** ** The stream collaborator *)

(** Modelled from the spec: the Stream class is not among the sources.  A
    stream is its bytes and a position; [seek] positions absolutely, [read]
    returns the next [n] bytes and advances.  A read the bytes cannot serve
    is raised as [StreamError]. *)
Record Stream : Type := mkStream { contents : Buffer; position : Z }.

Definition Stream_seek (off : Z) : M Stream unit :=
  fun st => (Ok tt, mkStream (contents st) off).

Definition Stream_read (n : Z) : M Stream Buffer :=
  fun st =>
    if (0 <=? position st) && (0 <=? n)
       && (position st + n <=? Z.of_nat (length (contents st)))
    then (Ok (slice (position st) n (contents st)),
          mkStream (contents st) (position st + n))
    else (Err StreamError, st).

(** [read_t<T>()], [n] times in a row. *)
Fixpoint Stream_read_n {T : Type} (n : nat) (size : Z) (as_T : Buffer -> T)
    : M Stream (list T) :=
  match n with
  | O => ret []
  | S n' =>
      b <- Stream_read size ;;
      rest <- Stream_read_n n' size as_T ;;
      ret (as_T b :: rest)
  end.

(** ** The parser object *)

Record PupParser : Type := mkPupParser {
  s : Stream;
  header : PupHeader;
  headerEx : PupHeaderEx;
  segEntries : list PupSegmentEntry;
  segMetas : list PupSegmentMeta }.

Definition on_stream {A : Type} (m : M Stream A) : M PupParser A :=
  fun p =>
    let '(r, st) := m (s p) in
    (r, mkPupParser st (header p) (headerEx p) (segEntries p) (segMetas p)).

Definition set_header (h : PupHeader) : M PupParser unit :=
  fun p => (Ok tt, mkPupParser (s p) h (headerEx p) (segEntries p) (segMetas p)).

Definition set_headerEx (h : PupHeaderEx) : M PupParser unit :=
  fun p => (Ok tt, mkPupParser (s p) (header p) h (segEntries p) (segMetas p)).

Definition set_segEntries (l : list PupSegmentEntry) : M PupParser unit :=
  fun p => (Ok tt, mkPupParser (s p) (header p) (headerEx p) l (segMetas p)).

Definition set_segMetas (l : list PupSegmentMeta) : M PupParser unit :=
  fun p => (Ok tt, mkPupParser (s p) (header p) (headerEx p) (segEntries p) l).

(** Reading a member. *)
Definition member {A : Type} (f : PupParser -> A) : M PupParser A :=
  fun p => (Ok (f p), p).

(** [v[i]] on a std::vector: undefined past the end. *)
Definition at_index {A : Type} (l : list A) (i : Z) : result A :=
  match l !! Z.to_nat i with
  | Some x => Ok x
  | None => Err (Undefined OutOfBoundsRead)
  end.

(** [reinterpret_cast<const T&>(buffer[off])]: the [size] bytes at [off]. *)
Definition reinterpret_at (off size : Z) (buffer : Buffer) : result Buffer :=
  if (0 <=? off) && (0 <=? size) && (off + size <=? Z.of_nat (length buffer))
  then Ok (slice off size buffer)
  else Err (Undefined OutOfBoundsRead).

(** Modelled from the spec: the two-argument [assert] macro of the orbital
    core headers is not among the sources; a failed assertion throws. *)
Definition assert {S : Type} (cond : bool) (a : assertion) : M S unit :=
  if cond then ret tt else throw (AssertionFailure a).

Section Parser.
Context `{Layout, BlockCipher, CryptoVault, Zlib}.

(** *** Construction *)

(** [for (i = 0; i < segment_count; i++) segEntries.push_back(segment_entries[i])],
    [n] iterations from index [i]. *)
Fixpoint push_entries (n : nat) (i : Z) (buffer : Buffer) : M PupParser unit :=
  match n with
  | O => ret tt
  | S n' =>
      raw <- lift (reinterpret_at
               (sizeof_PupHeaderEx + i * sizeof_PupSegmentEntry)
               sizeof_PupSegmentEntry buffer) ;;
      l <- member segEntries ;;
      set_segEntries (l ++ [as_PupSegmentEntry raw]) ;;;
      push_entries n' (i + 1) buffer
  end.

Fixpoint push_metas (n : nat) (i : Z) (buffer : Buffer) : M PupParser unit :=
  match n with
  | O => ret tt
  | S n' =>
      raw <- lift (reinterpret_at (i * sizeof_PupSegmentMeta)
               sizeof_PupSegmentMeta buffer) ;;
      l <- member segMetas ;;
      set_segMetas (l ++ [as_PupSegmentMeta raw]) ;;;
      push_metas n' (i + 1) buffer
  end.

(** The body of [PupParser::PupParser(Stream& s, bool verify)] up to the
    test of [verify], on the object under construction. *)
Definition read_tables : M PupParser unit :=
  (* Read and verify PUP header *)
  on_stream (Stream_seek 0) ;;;
  raw <- on_stream (Stream_read sizeof_PupHeader) ;;
  set_header (as_PupHeader raw) ;;;
  hd <- member header ;;
  assert (magic hd =? PUP_MAGIC) A_magic ;;;
  assert (version hd =? 0) A_version ;;;
  assert (mode hd =? 1) A_mode ;;;
  assert (endian hd =? LITTLE) A_endian ;;;
  assert (attr hd =? 0x12) A_attr ;;;
  (* Discard unsupported flags *)
  assert (Z.land (flags hd) JIG =? 0) A_no_JIG ;;;
  (* Decrypt and cache header *)
  buffer <- on_stream (Stream_read (wrap64 (hdr_size hd - sizeof_PupHeader))) ;;
  buffer <- lift (vault_decrypt (vault_get "pup.hdr") buffer) ;;
  raw <- lift (reinterpret_at 0 sizeof_PupHeaderEx buffer) ;;
  set_headerEx (as_PupHeaderEx raw) ;;;
  set_segEntries [] ;;;
  hx <- member headerEx ;;
  push_entries (Z.to_nat (segment_count hx)) 0 buffer ;;;
  (* Decrypt and cache meta *)
  buffer <- on_stream (Stream_read (meta_size hd)) ;;
  buffer <- lift (vault_decrypt (vault_get "pup.root_key") buffer) ;;
  set_segMetas [] ;;;
  hx <- member headerEx ;;
  push_metas (Z.to_nat (segment_count hx)) 0 buffer.

(** [PupParser::PupParser(Stream& s, bool verify)]. *)
Definition PupParser_ctor (verify : bool) : M PupParser unit :=
  read_tables ;;;
  if verify then throw RuntimeError_Unimplemented else ret tt.

(** The members before the constructor body runs: empty vectors; the two
    header records hold no value yet (zeros stand for it, they are
    overwritten before they are read). *)
Definition unconstructed (st : Stream) : PupParser :=
  mkPupParser st (mkPupHeader 0 0 0 0 0 0 0 0) (mkPupHeaderEx 0) [] [].

(** [PupParser parser(s, verify)]: the object if the constructor returns,
    the exception if it throws. *)
Definition new_PupParser (st : Stream) (verify : bool) : result PupParser :=
  match PupParser_ctor verify (unconstructed st) with
  | (Ok _, p) => Ok p
  | (Err e, _) => Err e
  end.

(** *** Lookup *)

(** The loop of [find], [n] iterations from index [i]. *)
Fixpoint find_from (n : nat) (i : Z)
    (pred : PupSegmentEntry -> PupSegmentMeta -> bool) (p : PupParser)
    : result Z :=
  match n with
  | O => Err OutOfRange_SegmentNotFound
  | S n' =>
      match at_index (segEntries p) i, at_index (segMetas p) i with
      | Ok e, Ok m => if pred e m then Ok i else find_from n' (i + 1) pred p
      | Err e, _ | _, Err e => Err e
      end
  end.

Definition find (pred : PupSegmentEntry -> PupSegmentMeta -> bool)
    (p : PupParser) : result Z :=
  find_from (Z.to_nat (segment_count (headerEx p))) 0 pred p.

(** [find(U64 id)] *)
Definition find_id (id' : Z) : PupParser -> result Z :=
  find (fun entry meta => (id entry =? id') && negb (is_info entry)).

Definition find_info (id' : Z) : PupParser -> result Z :=
  find (fun entry meta => (id entry =? id') && is_info entry).

(** A const member function: reads the object, leaves it as it is. *)
Definition const_call {A : Type} (f : PupParser -> result A) : M PupParser A :=
  fun p => (f p, p).

(** *** Extraction *)

(** What one block adds to the output, [cur_size] bytes that
    [segment.resize] has zeroed: the bytes [uncompress] wrote when the
    entry is compressed (its status is dropped), else the [memcpy] of the
    whole block.  The model stops where the C++ may leave defined
    behaviour: at a [memcpy] of more than [cur_size] bytes, and at a call
    of [uncompress] with a source length beyond the bytes of the block
    (whether zlib then reads past the block depends on the stream, which
    the model does not follow). *)
Definition emit_block (entry : PupSegmentEntry) (block : Buffer)
    (cur_zsize cur_size : Z) : result Buffer :=
  let dest := replicate (Z.to_nat cur_size) 0 in
  if is_compressed entry then
    if cur_zsize <=? Z.of_nat (length block) then
      let '(_, written) := uncompress (slice 0 cur_zsize block) cur_size in
      Ok (overwrite_prefix written dest)
    else Err (Undefined OutOfBoundsRead)
  else
    if Z.of_nat (length block) <=? cur_size then
      Ok (overwrite_prefix block dest)
    else Err (Undefined OutOfBoundsWrite).

Definition cur_zsize_of (extent : PupExtent) : Z :=
  (Z.land (ext_size extent) (Z.lnot 0xF) - Z.land (ext_size extent) 0xF)
    mod 2 ^ extent_bits.

(** The body of the loop over the extents: the bytes the block adds and
    the new [left_size]. *)
Definition process_block (entry : PupSegmentEntry) (meta : PupSegmentMeta)
    (extent : PupExtent) (left_size : Z) : M PupParser (Buffer * Z) :=
  on_stream (Stream_seek (wrap64 (offset entry + ext_offset extent))) ;;;
  block <- on_stream (Stream_read (ext_size extent)) ;;
  let cur_zsize := cur_zsize_of extent in
  let cur_size := Z.min (block_size entry) left_size in
  let left_size := left_size - cur_size in
  (* if (entry.is_signed()) { }: nothing is done *)
  block <- (if is_encrypted entry then
              let key := mkKey AES_128_CBC ""
                           (take 16 (data_key meta)) (take 16 (data_iv meta)) in
              lift (vault_decrypt key block)
            else ret block) ;;
  added <- lift (emit_block entry block cur_zsize cur_size) ;;
  ret (added, left_size).

Fixpoint process_extents (extents : list PupExtent) (entry : PupSegmentEntry)
    (meta : PupSegmentMeta) (left_size : Z) (segment : Buffer)
    : M PupParser Buffer :=
  match extents with
  | [] => ret segment
  | extent :: rest =>
      r <- process_block entry meta extent left_size ;;
      process_extents rest entry meta (snd r) (segment ++ fst r)
  end.

(** The digests and the extents, read in turn from the information
    segment's bytes. *)
Definition read_info (info_entry : PupSegmentEntry) (block_count : Z)
    : M Stream (list PupDigest * list PupExtent) :=
  digests <- (if has_digests info_entry
              then Stream_read_n (Z.to_nat block_count) sizeof_PupDigest as_PupDigest
              else ret []) ;;
  extents <- (if has_extents info_entry
              then Stream_read_n (Z.to_nat block_count) sizeof_PupExtent as_PupExtent
              else ret []) ;;
  ret (digests, extents).

(** [const auto info_index = find_info(index)]: the information segment
    [get_blocked(index)] works from. *)
Definition get_info_index (index : Z) : M PupParser Z :=
  const_call (find_info index).

Definition get_blocked (index : Z) : M PupParser Buffer :=
  (* Get target segment *)
  entry <- const_call (fun p => at_index (segEntries p) index) ;;
  meta <- const_call (fun p => at_index (segMetas p) index) ;;
  let block_count := block_count entry in
  (* Get information segment *)
  info_index <- get_info_index index ;;
  info_entry <- const_call (fun p => at_index (segEntries p) info_index) ;;
  info_meta <- const_call (fun p => at_index (segMetas p) info_index) ;;
  (* Read and process information segment data *)
  on_stream (Stream_seek (offset info_entry)) ;;;
  info_buffer <- on_stream (Stream_read (file_size info_entry)) ;;
  info_buffer <- (if is_encrypted info_entry
                  then lift (pup_decrypt info_buffer info_meta)
                  else ret info_buffer) ;;
  (if is_compressed info_entry
   then throw RuntimeError_Unimplemented else ret tt) ;;;
  (* if (info_entry.is_signed()) { }: nothing is done *)
  tables <- lift (fst (read_info info_entry block_count (mkStream info_buffer 0))) ;;
  (* Process target segment *)
  process_extents (snd tables) entry meta (file_size entry) [].

Definition get_nonblocked (index : Z) : M PupParser Buffer :=
  throw RuntimeError_Unimplemented.

Definition get (id' : Z) : M PupParser Buffer :=
  index <- const_call (find_id id') ;;
  entry <- const_call (fun p => at_index (segEntries p) index) ;;
  if has_blocks entry then get_blocked index else get_nonblocked index.

End Parser.

(** * Definitions the statements use *)

Section Statements.
Context `{Layout, BlockCipher, CryptoVault, Zlib}.

(** The two vectors have [headerEx.segment_count] elements each. *)
Definition tables_match (p : PupParser) : Prop :=
  Z.of_nat (length (segEntries p)) = segment_count (headerEx p)
  /\ Z.of_nat (length (segMetas p)) = segment_count (headerEx p).

(** Two objects with the same header, header extension, tables and stream
    bytes; the stream position is free. *)
Definition same_archive (p1 p2 : PupParser) : Prop :=
  header p1 = header p2 /\ headerEx p1 = headerEx p2
  /\ segEntries p1 = segEntries p2 /\ segMetas p1 = segMetas p2
  /\ contents (s p1) = contents (s p2).

(** A computation that changes nothing but the stream position. *)
Definition frame {A : Type} (m : M PupParser A) : Prop :=
  forall p, same_archive p (snd (m p)).

(** A computation whose result does not depend on the stream position. *)
Definition uniform {A : Type} (m : M PupParser A) : Prop :=
  forall p1 p2, same_archive p1 p2 -> fst (m p1) = fst (m p2).

(** The bytes of one block in the stream. *)
Definition raw_block (bytes : Buffer) (entry : PupSegmentEntry)
    (extent : PupExtent) : Buffer :=
  slice (wrap64 (offset entry + ext_offset extent)) (ext_size extent) bytes.

(** The key object [get_blocked] builds for every block of a segment. *)
Definition segment_key (meta : PupSegmentMeta) : Key :=
  mkKey AES_128_CBC "" (take 16 (data_key meta)) (take 16 (data_iv meta)).

(** Whether the stream has [n] bytes at [off]. *)
Definition stream_serves (bytes : Buffer) (off n : Z) : bool :=
  (0 <=? off) && (0 <=? n) && (off + n <=? Z.of_nat (length bytes)).

(** The header the constructor reads: [sizeof(PupHeader)] bytes at offset 0. *)
Definition header_read (st : Stream) : result PupHeader :=
  match Stream_read sizeof_PupHeader (mkStream (contents st) 0) with
  | (Ok raw, _) => Ok (as_PupHeader raw)
  | (Err e, _) => Err e
  end.

Definition fields_valid (hd : PupHeader) : bool :=
  (magic hd =? PUP_MAGIC) && (version hd =? 0) && (mode hd =? 1)
  && (endian hd =? LITTLE) && (attr hd =? 0x12).

(** The object once the header is stored, before the first [assert]. *)
Definition with_header (st : Stream) (hd : PupHeader) : PupParser :=
  mkPupParser (mkStream (contents st) (0 + sizeof_PupHeader)) hd
    (mkPupHeaderEx 0) [] [].

(** The checks of the header, in source order. *)
Definition check_header (hd : PupHeader) : M PupParser unit :=
  assert (magic hd =? PUP_MAGIC) A_magic ;;;
  assert (version hd =? 0) A_version ;;;
  assert (mode hd =? 1) A_mode ;;;
  assert (endian hd =? LITTLE) A_endian ;;;
  assert (attr hd =? 0x12) A_attr ;;;
  assert (Z.land (flags hd) JIG =? 0) A_no_JIG.

(** The first check that fails, when one of the five field checks does. *)
Definition first_failed (hd : PupHeader) : assertion :=
  if negb (magic hd =? PUP_MAGIC) then A_magic
  else if negb (version hd =? 0) then A_version
  else if negb (mode hd =? 1) then A_mode
  else if negb (endian hd =? LITTLE) then A_endian
  else A_attr.

(** Row [i] of the two tables, as the constructor reinterprets them. *)
Definition entry_at (buffer : Buffer) (i : Z) : PupSegmentEntry :=
  as_PupSegmentEntry
    (slice (sizeof_PupHeaderEx + i * sizeof_PupSegmentEntry)
       sizeof_PupSegmentEntry buffer).

Definition meta_at (buffer : Buffer) (i : Z) : PupSegmentMeta :=
  as_PupSegmentMeta
    (slice (i * sizeof_PupSegmentMeta) sizeof_PupSegmentMeta buffer).

(** The block after the [if (entry.is_encrypted())] statement. *)
Definition decrypted_block (entry : PupSegmentEntry) (meta : PupSegmentMeta)
    (raw : Buffer) : result Buffer :=
  if is_encrypted entry then vault_decrypt (segment_key meta) raw else Ok raw.

(** The bytes the blocks add to the output, from the blocks as decrypted. *)
Fixpoint emit_all (entry : PupSegmentEntry) (blocks : list Buffer)
    (extents : list PupExtent) (left_size : Z) : result Buffer :=
  match blocks, extents with
  | block :: blocks', extent :: extents' =>
      let cur_size := Z.min (block_size entry) left_size in
      match emit_block entry block (cur_zsize_of extent) cur_size with
      | Ok added =>
          match emit_all entry blocks' extents' (left_size - cur_size) with
          | Ok rest => Ok (added ++ rest)
          | Err e => Err e
          end
      | Err e => Err e
      end
  | _, _ => Ok []
  end.

(** The values [cur_size] takes over [n] iterations of the loop. *)
Fixpoint cur_sizes (block_size' left_size : Z) (n : nat) : list Z :=
  match n with
  | O => []
  | S n' =>
      let cur := Z.min block_size' left_size in
      cur :: cur_sizes block_size' (left_size - cur) n'
  end.

(** C1 as stated: the information segment of a blocked extraction is
    the one [find_info] resolves from the target entry's id. *)
Definition info_resolved_by_entry_id : Prop :=
  forall (index : Z) (p : PupParser) (entry : PupSegmentEntry) (info_index : Z),
    at_index (segEntries p) index = Ok entry ->
    get_info_index index p = (Ok info_index, p) ->
    find_info (id entry) p = Ok info_index.

(** C5 as stated: a status other than Z_OK from the primitive makes the
    extraction of the block throw. *)
Definition decompress_failure_throws : Prop :=
  forall entry meta extent left_size (p : PupParser) block,
    is_compressed entry = true ->
    stream_serves (contents (s p))
      (wrap64 (offset entry + ext_offset extent)) (ext_size extent) = true ->
    decrypted_block entry meta (raw_block (contents (s p)) entry extent) = Ok block ->
    cur_zsize_of extent <= Z.of_nat (length block) ->
    fst (uncompress (slice 0 (cur_zsize_of extent) block)
           (Z.min (block_size entry) left_size)) <> Z_OK ->
    exists e, fst (process_block entry meta extent left_size p) = Err e.

(** C10 as stated: on every archive, construction with [verify] ends in
    std::runtime_error("Unimplemented"), thrown on the object the full
    parse has left. *)
Definition verify_unimplemented_on_every_archive : Prop :=
  forall st : Stream, exists p,
    PupParser_ctor true (unconstructed st)
      = (Err RuntimeError_Unimplemented, p)
    /\ read_tables (unconstructed st) = (Ok tt, p).

(** C3 as the specification words it: every buffer whose length is not a
    multiple of 16 has its tail recovered from the last aligned block. *)
Definition tail_recovered_for_every_unaligned_buffer : Prop :=
  forall (buffer : Buffer) (meta : PupSegmentMeta),
    length (data_key meta) = 16%nat -> length (data_iv meta) = 16%nat ->
    (length buffer mod 16 <> 0)%nat ->
    pup_decrypt buffer meta =
      Ok (block_decryptor_spec (data_key meta) (data_iv meta) buffer).

End Statements.

(** * Properties *)

(** ** Arithmetic of the alignment masks *)

Lemma land_0xF (n : Z) : Z.land n 0xF = n mod 16.
Proof. change 0xF with (Z.ones 4). rewrite Z.land_ones by lia. reflexivity. Qed.

Lemma land_lnot_0xF (n : Z) : Z.land n (Z.lnot 0xF) = 16 * (n / 16).
Proof.
  rewrite <- Z.ldiff_land. change 0xF with (Z.ones 4).
  rewrite Z.ldiff_ones_r by lia.
  rewrite Z.shiftr_div_pow2, Z.shiftl_mul_pow2 by lia.
  change (2 ^ 4) with 16. lia.
Qed.

(** ** Buffers *)

Lemma overwrite_prefix_exact (src b : Buffer) :
  (length src <= length b)%nat ->
  overwrite_prefix src b = src ++ drop (length src) b.
Proof. intros Hle. unfold overwrite_prefix. by rewrite take_ge. Qed.

Lemma length_overwrite_prefix (src b : Buffer) :
  length (overwrite_prefix src b) = length b.
Proof.
  unfold overwrite_prefix. rewrite length_app, length_take, length_drop. lia.
Qed.

Lemma mapM_id_Some (l : Buffer) : mapM (fun c : option Z => c) (Some <$> l) = Some l.
Proof. apply mapM_Some. induction l; constructor; auto. Qed.

Section BotanFacts.
Context `{BlockCipher}.

Lemma length_cbc_decrypt_blocks (n : nat) (key prev buf : Buffer) :
  length prev = 16%nat -> (16 * n <= length buf)%nat ->
  length (cbc_decrypt_blocks n key prev buf) = (16 * n)%nat.
Proof.
  revert prev buf. induction n as [|n IH]; intros prev buf Hp Hb; [done|].
  cbn [cbc_decrypt_blocks]. rewrite length_app. unfold xor_bytes.
  rewrite length_zip_with, aes_decrypt_length, Hp.
  rewrite IH.
  - lia.
  - rewrite length_take. lia.
  - rewrite length_drop. lia.
Qed.

Lemma length_cbc_decrypt (key iv buf : Buffer) :
  length iv = 16%nat -> (length buf mod 16 = 0)%nat ->
  length (cbc_decrypt key iv buf) = length buf.
Proof.
  intros Hiv Hal. unfold cbc_decrypt.
  pose proof (Nat.div_mod_eq (length buf) 16) as Hdm.
  rewrite length_cbc_decrypt_blocks; lia.
Qed.

(** The sixteen bytes [pipe_enc.read(next_block, 16)] takes are the first
    ciphertext block, whatever the padding adds behind it. *)
Lemma length_cbc_encrypt_ge (key buf : Buffer) :
  (16 <= length (cbc_encrypt key buf))%nat.
Proof.
  unfold cbc_encrypt, pkcs7_pad.
  set (padded := buf ++ _).
  assert (Hlen : (16 <= length padded)%nat).
  { subst padded. rewrite length_app, length_replicate.
    pose proof (Nat.mod_upper_bound (length buf) 16).
    pose proof (Nat.div_mod_eq (length buf) 16). lia. }
  destruct (length padded / 16)%nat as [|n] eqn:Hn.
  - apply Nat.div_small_iff in Hn; lia.
  - cbn [cbc_encrypt_blocks]. rewrite length_app, aes_encrypt_length. lia.
Qed.

Lemma store16_full (src : Buffer) :
  (16 <= length src)%nat -> store16 src uninit16 = Some <$> take 16 src.
Proof.
  intros Hlen. unfold store16, uninit16.
  rewrite length_take, Nat.min_l by lia.
  change (drop 16 (replicate 16 None)) with (@nil (option Z)).
  rewrite app_nil_r. by rewrite fmap_take.
Qed.

(** The XOR loop, closed: bytes [base + i .. base + i + r) are XORed with
    [ks[i .. i + r)], all others are kept. *)
Lemma xor_tail_closed (r : nat) : forall (i base : nat) (ks buffer : Buffer),
  (i + r <= length ks)%nat -> (base + i + r <= length buffer)%nat ->
  xor_tail r i base (Some <$> ks) buffer =
    Ok (take (base + i) buffer
          ++ xor_bytes (take r (drop (base + i) buffer)) (take r (drop i ks))
          ++ drop (base + i + r) buffer).
Proof.
  induction r as [|r IH]; intros i base ks buffer Hk Hb.
  - cbn [xor_tail]. unfold xor_bytes. rewrite !take_0, Nat.add_0_r.
    cbn [zip_with app]. by rewrite take_drop.
  - cbn [xor_tail].
    destruct (lookup_lt_is_Some_2 buffer (base + i)%nat) as [b Hb']; [lia|].
    destruct (lookup_lt_is_Some_2 ks i) as [k Hk']; [lia|].
    rewrite Hb', list_lookup_fmap, Hk'. cbn.
    rewrite IH by (rewrite ?length_insert; lia).
    f_equal.
    replace (base + S i)%nat with (S (base + i)) by lia.
    rewrite (take_S_r _ _ (Z.lxor b k)).
    2:{ apply list_lookup_insert_eq. lia. }
    rewrite take_insert_ge by lia.
    rewrite <- app_assoc. f_equal.
    rewrite (drop_S buffer b (base + i)) by done.
    rewrite (drop_S ks k i) by done.
    cbn [take xor_bytes zip_with app]. unfold xor_bytes. f_equal.
    rewrite !drop_insert_lt by lia.
    do 2 f_equal. lia.
Qed.

End BotanFacts.

(** ** The Block Decryptor *)

Section BlockDecryptor.
Context `{BlockCipher}.

Lemma slice_0 (m : nat) (b : Buffer) : slice 0 (Z.of_nat m) b = take m b.
Proof. unfold slice. by rewrite Nat2Z.id. Qed.

Lemma slice_nat (o m : nat) (b : Buffer) :
  slice (Z.of_nat o) (Z.of_nat m) b = take m (drop o b).
Proof. unfold slice. by rewrite !Nat2Z.id. Qed.

Lemma aligned_size_nat (n : nat) :
  16 * (Z.of_nat n / 16) = Z.of_nat (n - n mod 16).
Proof.
  pose proof (Nat.div_mod_eq n 16) as Hn.
  pose proof (Nat.mod_upper_bound n 16).
  change 16 with (Z.of_nat 16).
  rewrite <- Nat2Z.inj_div, <- Nat2Z.inj_mul. f_equal. lia.
Qed.

Lemma overflow_size_nat (n : nat) : Z.of_nat n mod 16 = Z.of_nat (n mod 16).
Proof. by rewrite (Nat2Z.inj_mod n 16). Qed.

Lemma pup_decrypt_aligned (buffer : Buffer) (meta : PupSegmentMeta) :
  length (data_key meta) = 16%nat -> length (data_iv meta) = 16%nat ->
  (length buffer mod 16 = 0)%nat ->
  pup_decrypt buffer meta = Ok (cbc_decrypt (data_key meta) (data_iv meta) buffer).
Proof.
  intros Hk Hiv Hal. unfold pup_decrypt.
  rewrite land_0xF, land_lnot_0xF, aligned_size_nat, overflow_size_nat, Hal.
  rewrite Nat.sub_0_r. cbn [Z.of_nat Z.eqb negb andb].
  rewrite slice_0, Nat2Z.id.
  rewrite (take_ge (data_key meta)), (take_ge (data_iv meta)) by lia.
  rewrite (take_ge buffer) by lia.
  rewrite (take_ge (cbc_decrypt _ _ _)) by (rewrite length_cbc_decrypt; lia).
  rewrite overwrite_prefix_exact by (rewrite length_cbc_decrypt; lia).
  rewrite length_cbc_decrypt by lia.
  by rewrite drop_all, app_nil_r.
Qed.

Lemma pup_decrypt_unaligned (buffer : Buffer) (meta : PupSegmentMeta) :
  length (data_key meta) = 16%nat -> length (data_iv meta) = 16%nat ->
  (length buffer mod 16 <> 0)%nat -> (16 <= length buffer)%nat ->
  pup_decrypt buffer meta =
    Ok (block_decryptor_spec (data_key meta) (data_iv meta) buffer).
Proof.
  intros Hk Hiv Hov Hlen. unfold pup_decrypt, block_decryptor_spec.
  set (n := length buffer) in *. set (r := (n mod 16)%nat) in *.
  set (m := (n - r)%nat).
  assert (Hdm : n = (16 * (n / 16) + r)%nat) by apply Nat.div_mod_eq.
  assert (Hr : (r < 16)%nat) by (apply Nat.mod_upper_bound; lia).
  assert (Hq : (1 <= n / 16)%nat) by (apply Nat.div_le_lower_bound; lia).
  assert (Hm : (16 <= m)%nat) by lia.
  assert (Hm16 : (m mod 16 = 0)%nat).
  { subst m. replace (n - r)%nat with ((n / 16) * 16)%nat by lia.
    apply Nat.Div0.mod_mul. }
  rewrite land_0xF, land_lnot_0xF, aligned_size_nat, overflow_size_nat.
  fold r. fold m.
  replace (Z.of_nat r =? 0) with false by (symmetry; apply Z.eqb_neq; lia).
  replace (r =? 0)%nat with false by (symmetry; apply Nat.eqb_neq; lia).
  replace (16 <=? Z.of_nat m) with true by (symmetry; apply Z.leb_le; lia).
  cbn [negb andb].
  replace (Z.of_nat m - 16) with (Z.of_nat (m - 16)) by lia.
  rewrite (slice_nat (m - 16) 16), slice_0, !Nat2Z.id.
  rewrite !(take_ge (data_key meta)), !(take_ge (data_iv meta)) by lia.
  set (captured := take 16 (drop (m - 16) buffer)).
  assert (Hcap : length captured = 16%nat).
  { subst captured. rewrite length_take, length_drop. lia. }
  set (plain := cbc_decrypt (data_key meta) (data_iv meta) (take m buffer)).
  assert (Hplain : length plain = m).
  { assert (Htake : length (take m buffer) = m)
      by (rewrite length_take; fold n; lia).
    subst plain. rewrite length_cbc_decrypt; rewrite ?Htake; done. }
  rewrite store16_full by lia.
  unfold load16. rewrite mapM_id_Some.
  rewrite (take_ge captured) by lia.
  rewrite store16_full by apply length_cbc_encrypt_ge.
  set (ks := take 16 (cbc_encrypt (data_key meta) captured)).
  assert (Hks : length ks = 16%nat).
  { subst ks. rewrite length_take.
    pose proof (length_cbc_encrypt_ge (data_key meta) captured). lia. }
  rewrite (take_ge plain) by lia.
  rewrite overwrite_prefix_exact by lia.
  rewrite Hplain.
  rewrite xor_tail_closed
    by (rewrite ?length_app, ?length_drop, ?Hplain; fold n; lia).
  f_equal. rewrite !Nat.add_0_r, drop_0.
  rewrite take_app_length' by done.
  rewrite drop_app_length' by done.
  rewrite (drop_ge (plain ++ _))
    by (rewrite length_app, length_drop, Hplain; fold n; lia).
  rewrite app_nil_r. f_equal. f_equal.
  apply take_ge. rewrite length_drop. fold n. lia.
Qed.

End BlockDecryptor.

(** ** Stand-ins for the collaborators, to run the model on concrete archives *)

Definition bytes16 (f : nat -> Z) : Buffer := map f (seq 0 16).

Lemma length_bytes16 (f : nat -> Z) : length (bytes16 f) = 16%nat.
Proof. reflexivity. Qed.

(** A block cipher in place of AES: every byte shifted by the key's byte. *)
Definition shift_encrypt (k b : Buffer) : Buffer :=
  bytes16 (fun i => (nth i b 0 + nth i k 0 + 1) mod 256).

Definition shift_decrypt (k c : Buffer) : Buffer :=
  bytes16 (fun i => (nth i c 0 - nth i k 0 - 1) mod 256).

Definition shift_cipher : BlockCipher := {|
  aes_encrypt := shift_encrypt;
  aes_decrypt := shift_decrypt;
  default_iv := replicate 16 0;
  aes_encrypt_length := fun k b => length_bytes16 _;
  aes_decrypt_length := fun k b => length_bytes16 _;
  default_iv_length := eq_refl |}.

(** A provider for the examples.  With a key of explicit key and IV bytes
    it is plain CBC over whole blocks; that it refuses a partial block is
    this stand-in's choice, the sources do not say what the provider does
    with one.  Named keys leave the bytes as they are (the example archives
    store their tables in clear). *)
Definition raw_cbc_decrypt `{BlockCipher} (k : Key) (b : Buffer) : result Buffer :=
  match key_type k with
  | AES_128_CBC =>
      if ((length b mod 16 =? 0) && (length (key_iv k) =? 16))%nat
      then Ok (cbc_decrypt (key_data k) (key_iv k) b)
      else Err CryptoError
  | NamedKey => Ok b
  end.

Lemma raw_cbc_decrypt_length `{BlockCipher} (k : Key) (b b' : Buffer) :
  raw_cbc_decrypt k b = Ok b' -> length b' = length b.
Proof.
  unfold raw_cbc_decrypt. destruct (key_type k); [|congruence].
  destruct (_ && _) eqn:Hc; [|discriminate].
  apply andb_prop in Hc as [Hal Hiv].
  apply Nat.eqb_eq in Hal. apply Nat.eqb_eq in Hiv.
  intros [= <-]. by apply length_cbc_decrypt.
Qed.

Definition raw_cbc_vault (C : BlockCipher) : CryptoVault := {|
  vault_get := fun name => mkKey NamedKey name [] [];
  vault_decrypt := raw_cbc_decrypt;
  vault_decrypt_length := raw_cbc_decrypt_length |}.

Definition Z_BUF_ERROR : Z := -5.

(** In place of zlib: the source is the output, stored; it does not fit when
    it is longer than the room. *)
Definition stored_uncompress (src : Buffer) (room : Z) : Z * Buffer :=
  if Z.of_nat (length src) <=? room then (Z_OK, src) else (Z_BUF_ERROR, []).

Lemma stored_uncompress_bound (src : Buffer) (room : Z) :
  Z.of_nat (length (snd (stored_uncompress src room))) <= Z.max 0 room.
Proof.
  unfold stored_uncompress. destruct (Z.leb_spec (Z.of_nat (length src)) room); cbn; lia.
Qed.

Definition stored_zlib : Zlib := {|
  uncompress := stored_uncompress;
  uncompress_bound := stored_uncompress_bound |}.

(** A byte layout in place of pup.h's: one byte per field, the magic on
    four. *)
Definition le_bytes (b : Buffer) : Z := fold_right (fun x acc => x + 256 * acc) 0 b.

Definition byte_at (i : nat) (b : Buffer) : Z := nth i b 0.

Definition bit_at (i : Z) (x : Z) : bool := Z.testbit x i.

Definition small_layout : Layout := {|
  sizeof_PupHeader := 12;
  sizeof_PupHeaderEx := 1;
  sizeof_PupSegmentEntry := 8;
  sizeof_PupSegmentMeta := 32;
  sizeof_PupDigest := 1;
  sizeof_PupExtent := 2;
  as_PupHeader := fun b =>
    mkPupHeader (le_bytes (take 4 b)) (byte_at 4 b) (byte_at 5 b) (byte_at 6 b)
      (byte_at 7 b) (byte_at 8 b) (byte_at 9 b) (byte_at 10 b);
  as_PupHeaderEx := fun b => mkPupHeaderEx (byte_at 0 b mod 256);
  as_PupSegmentEntry := fun b =>
    let f := byte_at 1 b in
    mkPupSegmentEntry (byte_at 0 b)
      (bit_at 0 f) (bit_at 1 f) (bit_at 2 f) (bit_at 3 f) (bit_at 4 f)
      (bit_at 5 f) (bit_at 6 f)
      (byte_at 2 b) (byte_at 3 b) (byte_at 4 b) (byte_at 5 b);
  as_PupSegmentMeta := fun b =>
    mkPupSegmentMeta (bytes16 (fun i => byte_at i b))
      (bytes16 (fun i => byte_at (16 + i) b));
  as_PupDigest := fun b => mkPupDigest b;
  as_PupExtent := fun b => mkPupExtent (byte_at 0 b) (byte_at 1 b);
  extent_bits := 32;
  segment_count_unsigned := fun b => proj1 (Z.mod_pos_bound _ 256 eq_refl);
  meta_key_length := fun b => eq_refl;
  meta_iv_length := fun b => eq_refl |}.

Definition example_meta : PupSegmentMeta :=
  mkPupSegmentMeta (map Z.of_nat (seq 1 16)) (map Z.of_nat (seq 101 16)).

(** ** Example archives *)

(** Archives in [small_layout]: a 12-byte header, the count and the 8-byte
    entry rows, the 32-byte meta rows, then the payload.  The tables are
    stored in clear ([raw_cbc_vault] leaves named-key blocks as they are). *)
Definition archive_header (magic0 flags' n : Z) : Buffer :=
  [magic0; 0x15; 0x3D; 0x1D; 0; 1; 1; 0x12; flags'; 13 + 8 * n; 32 * n; 0].

Definition F_INFO : Z := 1.
Definition F_BLOCKS : Z := 2.
Definition F_ENCRYPTED : Z := 4.
Definition F_COMPRESSED : Z := 8.
Definition F_EXTENTS : Z := 64.

Definition entry_row (id' fl off fsize bsize bcount : Z) : Buffer :=
  [id'; fl; off; fsize; bsize; bcount; 0; 0].

Definition meta_row (seed : Z) : Buffer :=
  map (fun i => seed + Z.of_nat i) (seq 0 32).

Definition make_archive (magic0 flags' : Z) (rows : list Buffer) (payload : Buffer)
    : Buffer :=
  let n := Z.of_nat (length rows) in
  archive_header magic0 flags' n ++ [n] ++ concat rows
    ++ concat (map (fun k => meta_row (32 * Z.of_nat k)) (seq 0 (length rows)))
    ++ payload.

Definition example_vault : CryptoVault := raw_cbc_vault shift_cipher.

Definition example_new (archive : Buffer) (verify : bool) : result PupParser :=
  @new_PupParser small_layout example_vault (mkStream archive 0) verify.

Definition example_get (id' : Z) (p : PupParser) : result Buffer * PupParser :=
  @get small_layout shift_cipher example_vault stored_zlib id' p.

Definition parser_of (archive : Buffer) : PupParser :=
  match example_new archive false with
  | Ok p => p
  | Err _ => @unconstructed (mkStream archive 0)
  end.

Definition payload36 : Buffer := map Z.of_nat (seq 1 36).

(** One content segment of three blocks, at index 0 with id 1, and two info
    segments: the one with id 0 lists the blocks in order, the one with id 1
    lists other extents. *)
Definition two_info_archive : Buffer :=
  make_archive 0x4F 0
    [entry_row 1 F_BLOCKS 133 36 16 3;
     entry_row 0 (F_INFO + F_EXTENTS) 169 6 0 0;
     entry_row 1 (F_INFO + F_EXTENTS) 175 6 0 0]
    (payload36 ++ [0; 16; 16; 16; 32; 4] ++ [0; 4; 4; 4; 8; 4]).

Definition two_info_parser : PupParser := parser_of two_info_archive.

(** The scenario of the specification: three blocks with the extents
    (0,16), (16,16), (16,20), block size 16 and file size 36, neither
    encrypted nor compressed. *)
Definition scenario_archive : Buffer :=
  make_archive 0x4F 0
    [entry_row 0 F_BLOCKS 93 36 16 3;
     entry_row 0 (F_INFO + F_EXTENTS) 129 6 0 0]
    (payload36 ++ [0; 16; 16; 16; 16; 20]).

Definition scenario_parser : PupParser := parser_of scenario_archive.

Definition bad_magic_archive : Buffer := make_archive 0x50 0 [] [].
Definition jig_archive : Buffer := make_archive 0x4F 1 [] [].

Definition example_get_blocked (index : Z) (p : PupParser)
    : result Buffer * PupParser :=
  @get_blocked small_layout shift_cipher example_vault stored_zlib index p.

Definition example_process_block (entry : PupSegmentEntry) (meta : PupSegmentMeta)
    (extent : PupExtent) (left_size : Z) (p : PupParser)
    : result (Buffer * Z) * PupParser :=
  @process_block small_layout example_vault stored_zlib entry meta extent left_size p.

Definition example_ciphertext : Buffer := map Z.of_nat (seq 40 20).

(** Two equal ciphertext blocks, encrypted under the segment's key. *)
Definition cipher_block : Buffer := map Z.of_nat (seq 60 16).

Definition encrypted_archive : Buffer :=
  make_archive 0x4F 0
    [entry_row 0 (F_BLOCKS + F_ENCRYPTED) 93 32 16 2;
     entry_row 0 (F_INFO + F_EXTENTS) 125 4 0 0]
    (cipher_block ++ cipher_block ++ [0; 16; 16; 16]).

Definition encrypted_parser : PupParser := parser_of encrypted_archive.

Definition encrypted_entry : PupSegmentEntry :=
  mkPupSegmentEntry 0 false true true false false false false 93 32 16 2.

Definition encrypted_meta : PupSegmentMeta :=
  @as_PupSegmentMeta small_layout (meta_row 0).

(** One compressed block of 32 bytes for 16 bytes of output. *)
Definition compressed_archive : Buffer :=
  make_archive 0x4F 0
    [entry_row 0 (F_BLOCKS + F_COMPRESSED) 93 16 16 1;
     entry_row 0 (F_INFO + F_EXTENTS) 125 2 0 0]
    (cipher_block ++ cipher_block ++ [0; 32]).

Definition compressed_parser : PupParser := parser_of compressed_archive.

Definition compressed_entry : PupSegmentEntry :=
  mkPupSegmentEntry 0 false true false true false false false 93 16 16 1.

(** ** C3: the Block Decryptor *)

(** C3 (amended).  On every buffer that is 16-byte aligned or at least 16
    bytes long, [pup_decrypt] is the Block Decryptor of the specification:
    the aligned prefix of [len - len mod 16] bytes is decrypted with
    AES-128-CBC under the segment's key and IV, and a tail of [len mod 16]
    bytes is XORed with the first bytes of the CBC re-encryption of the last
    aligned ciphertext block, captured before decryption; on an aligned
    buffer this is plain AES-128-CBC decryption. *)
Theorem pup_decrypt_is_block_decryptor `{BlockCipher}
    (buffer : Buffer) (meta : PupSegmentMeta) :
  length (data_key meta) = 16%nat -> length (data_iv meta) = 16%nat ->
  (16 <= length buffer)%nat \/ (length buffer mod 16 = 0)%nat ->
  pup_decrypt buffer meta =
    Ok (block_decryptor_spec (data_key meta) (data_iv meta) buffer)
  /\ ((length buffer mod 16 = 0)%nat ->
      block_decryptor_spec (data_key meta) (data_iv meta) buffer =
        cbc_decrypt (data_key meta) (data_iv meta) buffer).
Proof.
  intros Hk Hiv Hlen.
  assert (Hal : (length buffer mod 16 = 0)%nat ->
     block_decryptor_spec (data_key meta) (data_iv meta) buffer =
       cbc_decrypt (data_key meta) (data_iv meta) buffer).
  { intros Hal. unfold block_decryptor_spec. rewrite Hal.
    cbn [Nat.eqb]. by rewrite Nat.sub_0_r, take_ge. }
  split; [|exact Hal].
  destruct (decide (length buffer mod 16 = 0)%nat) as [Hz|Hnz].
  - rewrite Hal by done. by apply pup_decrypt_aligned.
  - destruct Hlen as [Hlen|Hlen]; [|done]. by apply pup_decrypt_unaligned.
Qed.

Lemma pup_decrypt_is_block_decryptor_witness :
  @pup_decrypt shift_cipher example_ciphertext example_meta =
    Ok (@block_decryptor_spec shift_cipher (data_key example_meta)
          (data_iv example_meta) example_ciphertext)
  /\ ((length example_ciphertext mod 16 = 0)%nat ->
      @block_decryptor_spec shift_cipher (data_key example_meta)
        (data_iv example_meta) example_ciphertext =
      @cbc_decrypt shift_cipher (data_key example_meta) (data_iv example_meta)
        example_ciphertext).
Proof.
  apply (@pup_decrypt_is_block_decryptor shift_cipher example_ciphertext example_meta).
  - reflexivity.
  - reflexivity.
  - left. vm_compute. lia.
Defined.

(** The decrypted bytes of the example, tail included. *)
Example pup_decrypt_example :
  @pup_decrypt shift_cipher example_ciphertext example_meta =
    Ok [67; 64; 65; 78; 79; 76; 77; 74; 75; 72; 73; 86; 87; 84; 85; 82;
        18; 21; 20; 11].
Proof. vm_compute. reflexivity. Qed.

(** C3 as stated fails on a buffer shorter than one block: there is no
    aligned block to capture, and the tail is XORed with the encryption of a
    block that was never written. *)
Lemma short_buffer_tail_not_recovered :
  ~ (forall C : BlockCipher, @tail_recovered_for_every_unaligned_buffer C).
Proof.
  intros Hall.
  specialize (Hall shift_cipher [1; 2; 3; 4; 5] example_meta eq_refl eq_refl).
  assert (Hne : (length [1; 2; 3; 4; 5] mod 16 <> 0)%nat) by (vm_compute; lia).
  specialize (Hall Hne). vm_compute in Hall. discriminate Hall.
Qed.

(** ** The segment table and the resolver *)

Section Resolver.

Lemma at_index_nat {A : Type} (l : list A) (i : nat) :
  at_index l (Z.of_nat i) =
    match l !! i with Some x => Ok x | None => Err (Undefined OutOfBoundsRead) end.
Proof. unfold at_index. by rewrite Nat2Z.id. Qed.

(** What the loop of [find] returns, by induction on the iterations left:
    the first index from [i] on which the predicate holds. *)
Lemma find_from_Ok (n : nat) : forall (i : nat) pred (p : PupParser) (r : Z),
  find_from n (Z.of_nat i) pred p = Ok r ->
  exists (k : nat) e m,
    r = Z.of_nat k /\ (i <= k < i + n)%nat
    /\ segEntries p !! k = Some e /\ segMetas p !! k = Some m
    /\ pred e m = true
    /\ forall (j : nat) e' m', (i <= j < k)%nat ->
         segEntries p !! j = Some e' -> segMetas p !! j = Some m' ->
         pred e' m' = false.
Proof.
  induction n as [|n IH]; intros i pred p r; cbn [find_from]; [discriminate|].
  rewrite !at_index_nat.
  destruct (segEntries p !! i) as [e|] eqn:He; [|discriminate].
  destruct (segMetas p !! i) as [m|] eqn:Hm; [|discriminate].
  destruct (pred e m) eqn:Hp.
  - intros [= <-]. exists i, e, m. repeat split; try done; lia.
  - replace (Z.of_nat i + 1) with (Z.of_nat (S i)) by lia.
    intros Hr. destruct (IH _ _ _ _ Hr) as (k & e1 & m1 & -> & Hk & He1 & Hm1 & Hp1 & Hlow).
    exists k, e1, m1. repeat split; try done; try lia.
    intros j e' m' Hj He' Hm'.
    destruct (decide (j = i)) as [->|Hne].
    + congruence.
    + apply (Hlow j e' m'); [lia|done|done].
Qed.

Lemma find_from_Err (n : nat) : forall (i : nat) pred (p : PupParser) (x : exn),
  (i + n <= length (segEntries p))%nat -> (i + n <= length (segMetas p))%nat ->
  find_from n (Z.of_nat i) pred p = Err x ->
  x = OutOfRange_SegmentNotFound
  /\ forall (j : nat) e m, (i <= j < i + n)%nat ->
       segEntries p !! j = Some e -> segMetas p !! j = Some m -> pred e m = false.
Proof.
  induction n as [|n IH]; intros i pred p x Hle Hlm; cbn [find_from].
  - intros [= <-]. split; [done|]. intros j e m Hj. lia.
  - rewrite !at_index_nat.
    destruct (lookup_lt_is_Some_2 (segEntries p) i) as [e He]; [lia|].
    destruct (lookup_lt_is_Some_2 (segMetas p) i) as [m Hm]; [lia|].
    rewrite He, Hm. destruct (pred e m) eqn:Hp; [discriminate|].
    replace (Z.of_nat i + 1) with (Z.of_nat (S i)) by lia.
    intros Hr. destruct (IH (S i) pred p x) as [-> Hnone]; [lia|lia|done|].
    split; [done|]. intros j e' m' Hj He' Hm'.
    destruct (decide (j = i)) as [->|Hne]; [congruence|].
    apply (Hnone j e' m'); [lia|done|done].
Qed.

Lemma find_from_none (n : nat) : forall (i : nat) pred (p : PupParser),
  (i + n <= length (segEntries p))%nat -> (i + n <= length (segMetas p))%nat ->
  (forall (j : nat) e m, (i <= j < i + n)%nat ->
     segEntries p !! j = Some e -> segMetas p !! j = Some m -> pred e m = false) ->
  find_from n (Z.of_nat i) pred p = Err OutOfRange_SegmentNotFound.
Proof.
  intros i pred p Hle Hlm Hnone.
  destruct (find_from n (Z.of_nat i) pred p) as [r|x] eqn:Hf.
  - apply find_from_Ok in Hf as (k & e & m & _ & Hk & He & Hm & Hp & _).
    rewrite (Hnone k e m) in Hp; [discriminate|lia|done|done].
  - by apply find_from_Err in Hf as [-> _].
Qed.

Lemma tables_match_lengths (p : PupParser) :
  tables_match p ->
  length (segEntries p) = Z.to_nat (segment_count (headerEx p))
  /\ length (segMetas p) = Z.to_nat (segment_count (headerEx p)).
Proof. intros [He Hm]. lia. Qed.

(** C7.  On a parser whose tables have [segment_count] rows, [find(id)] scans
    the indices from 0 and returns the lowest one whose entry has this id and
    is not an info segment; an info-flagged entry is never returned, whatever
    its id; and when no entry matches, in particular when the id is present
    only on info segments, it throws std::out_of_range, the NotFoundError of
    the specification. *)
Theorem find_id_lowest_content_index (p : PupParser) (id' : Z) :
  tables_match p ->
  (forall i : Z, find_id id' p = Ok i ->
     0 <= i < segment_count (headerEx p)
     /\ exists e, segEntries p !! Z.to_nat i = Some e
          /\ id e = id' /\ is_info e = false
          /\ forall (j : nat) e', (j < Z.to_nat i)%nat ->
               segEntries p !! j = Some e' ->
               ~ (id e' = id' /\ is_info e' = false))
  /\ ((exists e, e ∈ segEntries p /\ id e = id' /\ is_info e = false) ->
      exists i, find_id id' p = Ok i)
  /\ ((forall e, e ∈ segEntries p -> id e = id' -> is_info e = true) ->
      find_id id' p = Err OutOfRange_SegmentNotFound
      /\ classify OutOfRange_SegmentNotFound = Some NotFoundError).
Proof.
  intros Hwf. destruct (tables_match_lengths p Hwf) as [Hle Hlm].
  unfold find_id, find. change 0 with (Z.of_nat 0).
  set (pred := fun (entry : PupSegmentEntry) (_ : PupSegmentMeta) =>
                 (id entry =? id') && negb (is_info entry)).
  assert (Hpred : forall e m, pred e m = true <-> id e = id' /\ is_info e = false).
  { intros e m. unfold pred. rewrite andb_true_iff, Z.eqb_eq, negb_true_iff. done. }
  split; [|split].
  - intros i Hf. apply find_from_Ok in Hf
      as (k & e & m & -> & Hk & He & Hm & Hp & Hlow).
    rewrite Nat2Z.id. split; [lia|].
    apply Hpred in Hp as [Hid Hinfo].
    exists e. repeat split; try done.
    intros j e' Hj He' Hmatch.
    destruct (lookup_lt_is_Some_2 (segMetas p) j) as [m' Hm']; [lia|].
    apply (Hpred e' m') in Hmatch.
    rewrite (Hlow j e' m') in Hmatch; [discriminate|lia|done|done].
  - intros (e & Hin & Hid & Hinfo).
    destruct (find_from _ _ pred p) as [r|x] eqn:Hf; [by exists r|].
    apply find_from_Err in Hf as [_ Hnone]; [|lia|lia].
    apply list_elem_of_lookup in Hin as [j Hj].
    pose proof (lookup_lt_Some _ _ _ Hj) as Hlt.
    destruct (lookup_lt_is_Some_2 (segMetas p) j) as [m Hm]; [lia|].
    assert (Hp : pred e m = true) by (by apply Hpred).
    rewrite (Hnone j e m) in Hp; [discriminate|lia|done|done].
  - intros Honly. split; [|done].
    apply find_from_none; [lia|lia|].
    intros j e m Hj He Hm.
    destruct (pred e m) eqn:Hp; [|done].
    apply Hpred in Hp as [Hid Hinfo].
    rewrite (Honly e) in Hinfo; [discriminate| |done].
    apply list_elem_of_lookup. by exists j.
Qed.

End Resolver.

(** ** Reasoning about [M] *)

Lemma bind_Ok {S A B : Type} (m : M S A) (k : A -> M S B) (st st' : S) (b : B) :
  bind m k st = (Ok b, st') ->
  exists a st1, m st = (Ok a, st1) /\ k a st1 = (Ok b, st').
Proof.
  unfold bind. destruct (m st) as [[a|e] st1]; [|discriminate].
  intros Hk. by exists a, st1.
Qed.

Lemma bind_Ok_eq {S A B : Type} (m : M S A) (k : A -> M S B) (st st1 : S) (a : A) :
  m st = (Ok a, st1) -> bind m k st = k a st1.
Proof. intros Hm. unfold bind. by rewrite Hm. Qed.

Lemma bind_Err_eq {S A B : Type} (m : M S A) (k : A -> M S B) (st st1 : S) (e : exn) :
  m st = (Err e, st1) -> bind m k st = (Err e, st1).
Proof. intros Hm. unfold bind. by rewrite Hm. Qed.

Lemma lift_Ok {S A : Type} (r : result A) (st st' : S) (a : A) :
  lift r st = (Ok a, st') -> r = Ok a /\ st' = st.
Proof. unfold lift. by intros [= -> ->]. Qed.

Lemma assert_Ok {S : Type} (cond : bool) (a : assertion) (st st' : S) (u : unit) :
  assert cond a st = (Ok u, st') -> cond = true /\ st' = st.
Proof. unfold assert. destruct cond; [by intros [= _ ->]|discriminate]. Qed.

Lemma Stream_read_Ok (n : Z) (st st' : Stream) (b : Buffer) :
  Stream_read n st = (Ok b, st') ->
  b = slice (position st) n (contents st)
  /\ st' = mkStream (contents st) (position st + n)
  /\ Z.of_nat (length b) = n.
Proof.
  unfold Stream_read.
  destruct (_ && _) eqn:Hc; [|discriminate].
  apply andb_prop in Hc as [Hc Hle]. apply andb_prop in Hc as [Hp Hn].
  intros [= <- <-]. repeat split.
  unfold slice. rewrite length_take, length_drop. lia.
Qed.

(** Unfolds one step of a computation in [M] that is known to return. *)
Tactic Notation "step_in" hyp(H) :=
  let a := fresh "a" in
  let st := fresh "p" in
  let Hm := fresh "Hm" in
  apply bind_Ok in H as (a & st & Hm & H).

Tactic Notation "step_in" hyp(H) "as" ident(a) :=
  let st := fresh "p" in
  let Hm := fresh "Hm" in
  apply bind_Ok in H as (a & st & Hm & H).

Ltac simpl_obj :=
  cbn [s header headerEx segEntries segMetas contents position] in *.

(** ** Construction *)

Section Construction.
Context `{Layout, BlockCipher, CryptoVault, Zlib}.

Lemma fields_valid_true (hd : PupHeader) :
  fields_valid hd = true <->
  magic hd = PUP_MAGIC /\ version hd = 0 /\ mode hd = 1
  /\ endian hd = LITTLE /\ attr hd = 0x12.
Proof. unfold fields_valid. rewrite !andb_true_iff, !Z.eqb_eq. tauto. Qed.

Lemma header_read_Ok (st : Stream) (hd : PupHeader) :
  header_read st = Ok hd ->
  exists raw,
    Stream_read sizeof_PupHeader (mkStream (contents st) 0)
      = (Ok raw, mkStream (contents st) (0 + sizeof_PupHeader))
    /\ hd = as_PupHeader raw.
Proof.
  unfold header_read.
  destruct (Stream_read _ _) as [[raw|e] st1] eqn:Hr; [|discriminate].
  intros [= <-]. exists raw. split; [|done].
  by apply Stream_read_Ok in Hr as (_ & -> & _).
Qed.

(** Failing checks stop the constructor with the object as [with_header]
    left it. *)
Lemma read_tables_bad_header (st : Stream) (hd : PupHeader) (a : assertion) :
  header_read st = Ok hd ->
  check_header hd (with_header st hd) = (Err (AssertionFailure a), with_header st hd) ->
  read_tables (unconstructed st) = (Err (AssertionFailure a), with_header st hd).
Proof.
  intros (raw & Hread & ->)%header_read_Ok Hcheck.
  unfold read_tables.
  erewrite bind_Ok_eq by reflexivity.
  erewrite bind_Ok_eq
    by (unfold on_stream; cbn [s unconstructed]; rewrite Hread; reflexivity).
  erewrite bind_Ok_eq by reflexivity.
  erewrite bind_Ok_eq by reflexivity.
  cbn [header headerEx segEntries segMetas s].
  revert Hcheck. unfold check_header, with_header, bind, assert, ret, throw.
  repeat match goal with
  | |- context [if ?c then _ else _] => destruct c
  end; intros Hc; try exact Hc; discriminate Hc.
Qed.

Lemma check_header_result (hd : PupHeader) (p : PupParser) :
  check_header hd p =
    if fields_valid hd then
      if Z.land (flags hd) JIG =? 0 then (Ok tt, p)
      else (Err (AssertionFailure A_no_JIG), p)
    else (Err (AssertionFailure (first_failed hd)), p).
Proof.
  unfold check_header, fields_valid, first_failed, bind, assert, ret, throw.
  destruct (magic hd =? PUP_MAGIC); [|done].
  destruct (version hd =? 0); [|done].
  destruct (mode hd =? 1); [|done].
  destruct (endian hd =? LITTLE); [|done].
  destruct (attr hd =? 18); [|done].
  by destruct (Z.land (flags hd) JIG =? 0).
Qed.

Lemma classify_first_failed (hd : PupHeader) :
  classify (AssertionFailure (first_failed hd)) = Some FormatError.
Proof. unfold first_failed. repeat case_match; done. Qed.

(** C6.  When the header that was read has a wrong magic, version, mode,
    endian or attr, the constructor throws at the failing [assert], a
    FormatError; when these are right and the JIG bit of the flags is set, it
    throws at the JIG [assert], an UnsupportedFeatureError.  Either way it
    stops before the tables are touched: both vectors are still empty and
    the stream stands just behind the header. *)
Theorem invalid_header_fails_before_tables (st : Stream) (verify : bool)
    (hd : PupHeader) :
  header_read st = Ok hd ->
  fields_valid hd = false \/ Z.land (flags hd) JIG <> 0 ->
  exists e p',
    PupParser_ctor verify (unconstructed st) = (Err e, p')
    /\ new_PupParser st verify = Err e
    /\ classify e =
         Some (if fields_valid hd then UnsupportedFeatureError else FormatError)
    /\ segEntries p' = [] /\ segMetas p' = []
    /\ s p' = mkStream (contents st) sizeof_PupHeader.
Proof.
  intros Hread Hbad.
  assert (Hex : exists a,
    check_header hd (with_header st hd) = (Err (AssertionFailure a), with_header st hd)
    /\ classify (AssertionFailure a) =
         Some (if fields_valid hd then UnsupportedFeatureError else FormatError)).
  { rewrite check_header_result. destruct (fields_valid hd) eqn:Hv.
    - destruct Hbad as [Hbad|Hjig]; [discriminate|].
      apply Z.eqb_neq in Hjig. rewrite Hjig. by exists A_no_JIG.
    - exists (first_failed hd). split; [done|apply classify_first_failed]. }
  destruct Hex as (a & Hcheck & Hclass).
  pose proof (read_tables_bad_header st hd a Hread Hcheck) as Hrt.
  exists (AssertionFailure a), (with_header st hd).
  assert (Hctor : PupParser_ctor verify (unconstructed st)
                  = (Err (AssertionFailure a), with_header st hd)).
  { unfold PupParser_ctor. by erewrite bind_Err_eq. }
  split; [done|]. split.
  { unfold new_PupParser. by rewrite Hctor. }
  done.
Qed.

Lemma reinterpret_at_Ok (off size : Z) (buffer raw : Buffer) :
  reinterpret_at off size buffer = Ok raw -> raw = slice off size buffer.
Proof. unfold reinterpret_at. case_match; congruence. Qed.

Lemma push_entries_Ok (n : nat) : forall (i : Z) (buffer : Buffer) (p p' : PupParser) u,
  push_entries n i buffer p = (Ok u, p') ->
  p' = mkPupParser (s p) (header p) (headerEx p)
         (segEntries p
            ++ map (fun k => entry_at buffer (i + Z.of_nat k)) (seq 0 n))
         (segMetas p).
Proof.
  induction n as [|n IH]; intros i buffer p p' u Hrun.
  - cbn in Hrun. injection Hrun as _ <-. cbn. rewrite app_nil_r. by destruct p.
  - cbn [push_entries] in Hrun.
    step_in Hrun. apply lift_Ok in Hm as [Hraw ->].
    apply reinterpret_at_Ok in Hraw as ->.
    step_in Hrun. injection Hm as <- <-.
    step_in Hrun. injection Hm as _ <-.
    apply IH in Hrun as ->. cbn [s header headerEx segEntries segMetas].
    f_equal. rewrite <- app_assoc. f_equal. cbn [seq map app].
    f_equal.
    + unfold entry_at. by rewrite Z.add_0_r.
    + rewrite <- seq_shift, map_map. apply map_ext. intros k. f_equal. lia.
Qed.

Lemma push_metas_Ok (n : nat) : forall (i : Z) (buffer : Buffer) (p p' : PupParser) u,
  push_metas n i buffer p = (Ok u, p') ->
  p' = mkPupParser (s p) (header p) (headerEx p) (segEntries p)
         (segMetas p
            ++ map (fun k => meta_at buffer (i + Z.of_nat k)) (seq 0 n)).
Proof.
  induction n as [|n IH]; intros i buffer p p' u Hrun.
  - cbn in Hrun. injection Hrun as _ <-. cbn. rewrite app_nil_r. by destruct p.
  - cbn [push_metas] in Hrun.
    step_in Hrun. apply lift_Ok in Hm as [Hraw ->].
    apply reinterpret_at_Ok in Hraw as ->.
    step_in Hrun. injection Hm as <- <-.
    step_in Hrun. injection Hm as _ <-.
    apply IH in Hrun as ->. cbn [s header headerEx segEntries segMetas].
    f_equal. rewrite <- app_assoc. f_equal. cbn [seq map app].
    f_equal.
    + unfold meta_at. by rewrite Z.add_0_r.
    + rewrite <- seq_shift, map_map. apply map_ext. intros k. f_equal. lia.
Qed.

Lemma on_stream_read_Ok (n : Z) (p p' : PupParser) (b : Buffer) :
  on_stream (Stream_read n) p = (Ok b, p') ->
  b = slice (position (s p)) n (contents (s p))
  /\ p' = mkPupParser (mkStream (contents (s p)) (position (s p) + n))
            (header p) (headerEx p) (segEntries p) (segMetas p)
  /\ Z.of_nat (length b) = n.
Proof.
  unfold on_stream. destruct (Stream_read n (s p)) as [r st'] eqn:Hr.
  intros [= -> <-]. by apply Stream_read_Ok in Hr as (-> & -> & Hlen).
Qed.

(** The object a returning constructor leaves, as a function of the
    stream's bytes: the header, the header extension at the start of the
    decrypted block behind it, and row [i] of each decrypted table at index
    [i] of its vector. *)
Lemma read_tables_Ok (st : Stream) (p : PupParser) (u : unit) :
  read_tables (unconstructed st) = (Ok u, p) ->
  exists hd ext metab,
    header_read st = Ok hd
    /\ fields_valid hd = true /\ Z.land (flags hd) JIG = 0
    /\ vault_decrypt (vault_get "pup.hdr")
         (slice sizeof_PupHeader (wrap64 (hdr_size hd - sizeof_PupHeader))
            (contents st)) = Ok ext
    /\ vault_decrypt (vault_get "pup.root_key")
         (slice (sizeof_PupHeader + wrap64 (hdr_size hd - sizeof_PupHeader))
            (meta_size hd) (contents st)) = Ok metab
    /\ p = mkPupParser
             (mkStream (contents st)
                (sizeof_PupHeader + wrap64 (hdr_size hd - sizeof_PupHeader)
                 + meta_size hd))
             hd
             (as_PupHeaderEx (slice 0 sizeof_PupHeaderEx ext))
             (map (fun k => entry_at ext (Z.of_nat k))
                (seq 0 (Z.to_nat (segment_count
                   (as_PupHeaderEx (slice 0 sizeof_PupHeaderEx ext))))))
             (map (fun k => meta_at metab (Z.of_nat k))
                (seq 0 (Z.to_nat (segment_count
                   (as_PupHeaderEx (slice 0 sizeof_PupHeaderEx ext)))))).
Proof.
  intros Hrun. unfold read_tables in Hrun.
  step_in Hrun. injection Hm as _ <-. simpl_obj.
  step_in Hrun. pose proof Hm as Hhdr.
  apply on_stream_read_Ok in Hm as (-> & -> & _). simpl_obj.
  step_in Hrun. injection Hm as _ <-. simpl_obj.
  step_in Hrun. injection Hm as <- <-. simpl_obj.
  set (hd := as_PupHeader _) in *.
  step_in Hrun. apply assert_Ok in Hm as [Hmagic ->].
  step_in Hrun. apply assert_Ok in Hm as [Hversion ->].
  step_in Hrun. apply assert_Ok in Hm as [Hmode ->].
  step_in Hrun. apply assert_Ok in Hm as [Hendian ->].
  step_in Hrun. apply assert_Ok in Hm as [Hattr ->].
  step_in Hrun. apply assert_Ok in Hm as [Hjig ->].
  step_in Hrun. apply on_stream_read_Ok in Hm as (-> & -> & _). simpl_obj.
  step_in Hrun as ext. apply lift_Ok in Hm as [Hext ->].
  step_in Hrun. apply lift_Ok in Hm as [Hraw ->].
  apply reinterpret_at_Ok in Hraw as ->.
  step_in Hrun. injection Hm as _ <-. simpl_obj.
  step_in Hrun. injection Hm as _ <-. simpl_obj.
  step_in Hrun. injection Hm as <- <-. simpl_obj.
  step_in Hrun. apply push_entries_Ok in Hm as ->. simpl_obj.
  step_in Hrun. apply on_stream_read_Ok in Hm as (-> & -> & _). simpl_obj.
  step_in Hrun as metab. apply lift_Ok in Hm as [Hmeta ->].
  step_in Hrun. injection Hm as _ <-. simpl_obj.
  step_in Hrun. injection Hm as <- <-. simpl_obj.
  apply push_metas_Ok in Hrun as ->. simpl_obj.
  exists hd. eexists. eexists.
  split.
  { unfold header_read. unfold on_stream in Hhdr. simpl_obj.
    destruct (Stream_read _ _) as [[raw|e] st1] eqn:Hr; [|discriminate].
    apply Stream_read_Ok in Hr as (-> & _). done. }
  split.
  { unfold fields_valid. by rewrite Hmagic, Hversion, Hmode, Hendian, Hattr. }
  split; [by apply Z.eqb_eq|].
  split; [exact Hext|]. split; [exact Hmeta|].
  f_equal.
Qed.

Lemma ctor_Ok (st : Stream) (verify : bool) (p : PupParser) :
  new_PupParser st verify = Ok p ->
  verify = false /\ read_tables (unconstructed st) = (Ok tt, p).
Proof.
  unfold new_PupParser, PupParser_ctor, bind.
  destruct (read_tables (unconstructed st)) as [[[]|e] p1]; [|discriminate].
  destruct verify; cbn; [discriminate|]. by intros [= ->].
Qed.

(** Both loops run [segment_count] times. *)
Lemma read_tables_tables_match (st : Stream) (p : PupParser) (u : unit) :
  read_tables (unconstructed st) = (Ok u, p) -> tables_match p.
Proof.
  intros Hrun.
  apply read_tables_Ok in Hrun as (hd & ext & metab & _ & _ & _ & _ & _ & ->).
  pose proof (segment_count_unsigned (slice 0 sizeof_PupHeaderEx ext)) as Hn.
  unfold tables_match. simpl_obj. rewrite !length_map, !length_seq. lia.
Qed.

(** C8.  A constructed parser has [segment_count] entries and
    [segment_count] metas, and index [i] of either vector holds row [i] of
    its table: the entry reinterpreted from the decrypted header extension
    block behind [PupHeaderEx], the meta from the decrypted meta block. *)
Theorem constructed_tables_parallel (st : Stream) (verify : bool) (p : PupParser) :
  new_PupParser st verify = Ok p ->
  tables_match p
  /\ exists ext metab,
       vault_decrypt (vault_get "pup.hdr")
         (slice sizeof_PupHeader
            (wrap64 (hdr_size (header p) - sizeof_PupHeader)) (contents st))
         = Ok ext
       /\ vault_decrypt (vault_get "pup.root_key")
            (slice (sizeof_PupHeader
                    + wrap64 (hdr_size (header p) - sizeof_PupHeader))
               (meta_size (header p)) (contents st))
          = Ok metab
       /\ headerEx p = as_PupHeaderEx (slice 0 sizeof_PupHeaderEx ext)
       /\ forall i : nat, Z.of_nat i < segment_count (headerEx p) ->
            segEntries p !! i = Some (entry_at ext (Z.of_nat i))
            /\ segMetas p !! i = Some (meta_at metab (Z.of_nat i)).
Proof.
  intros [_ Hrun]%ctor_Ok.
  split; [by apply read_tables_tables_match in Hrun|].
  apply read_tables_Ok in Hrun
    as (hd & ext & metab & _ & _ & _ & Hext & Hmeta & ->).
  simpl_obj. set (hx := as_PupHeaderEx _) in *.
  pose proof (segment_count_unsigned (slice 0 sizeof_PupHeaderEx ext)) as Hn.
  fold hx in Hn.
  - exists ext, metab. repeat split; try done.
    + rewrite list_lookup_fmap, lookup_seq_lt by lia. done.
    + rewrite list_lookup_fmap, lookup_seq_lt by lia. done.
Qed.

Lemma ctor_verify (st : Stream) :
  PupParser_ctor true (unconstructed st) =
    match PupParser_ctor false (unconstructed st) with
    | (Ok _, p) => (Err RuntimeError_Unimplemented, p)
    | (Err e, p) => (Err e, p)
    end.
Proof.
  unfold PupParser_ctor, bind.
  by destruct (read_tables (unconstructed st)) as [[[]|e] p1].
Qed.

(** C10 (amended).  With [verify] set the constructor never returns.  On
    an archive that constructs without it, the exception is
    std::runtime_error("Unimplemented"), thrown only after the full parse:
    the object at the throw holds the header read at offset 0, the header
    extension from the decrypted block behind it, and in both vectors the
    [segment_count] rows of the decrypted tables, the stream standing
    behind the meta block.  On any other archive the parse itself has
    thrown, with the exception it throws without [verify]. *)
Theorem verify_always_throws (st : Stream) :
  (exists e, new_PupParser st true = Err e)
  /\ (forall p, new_PupParser st false = Ok p ->
        new_PupParser st true = Err RuntimeError_Unimplemented
        /\ PupParser_ctor true (unconstructed st)
           = (Err RuntimeError_Unimplemented, p)
        /\ tables_match p
        /\ header_read st = Ok (header p)
        /\ s p = mkStream (contents st)
                   (sizeof_PupHeader
                    + wrap64 (hdr_size (header p) - sizeof_PupHeader)
                    + meta_size (header p))
        /\ exists ext metab,
             vault_decrypt (vault_get "pup.hdr")
               (slice sizeof_PupHeader
                  (wrap64 (hdr_size (header p) - sizeof_PupHeader))
                  (contents st)) = Ok ext
             /\ vault_decrypt (vault_get "pup.root_key")
                  (slice (sizeof_PupHeader
                          + wrap64 (hdr_size (header p) - sizeof_PupHeader))
                     (meta_size (header p)) (contents st)) = Ok metab
             /\ headerEx p = as_PupHeaderEx (slice 0 sizeof_PupHeaderEx ext)
             /\ segEntries p =
                  map (fun k => entry_at ext (Z.of_nat k))
                    (seq 0 (Z.to_nat (segment_count (headerEx p))))
             /\ segMetas p =
                  map (fun k => meta_at metab (Z.of_nat k))
                    (seq 0 (Z.to_nat (segment_count (headerEx p)))))
  /\ (forall e, new_PupParser st false = Err e -> new_PupParser st true = Err e).
Proof.
  split; [|split].
  - unfold new_PupParser. rewrite ctor_verify.
    destruct (PupParser_ctor false (unconstructed st)) as [[[]|e] p1]; eauto.
  - intros p Hok.
    pose proof (ctor_Ok st false p Hok) as [_ Hrun].
    pose proof (read_tables_tables_match st p tt Hrun) as Hwf.
    assert (Hthrow : PupParser_ctor true (unconstructed st)
                     = (Err RuntimeError_Unimplemented, p)).
    { unfold new_PupParser in Hok. rewrite ctor_verify.
      destruct (PupParser_ctor false (unconstructed st)) as [[[]|e] p1];
        [|discriminate].
      by injection Hok as ->. }
    split; [unfold new_PupParser; by rewrite Hthrow|].
    split; [exact Hthrow|]. split; [exact Hwf|].
    apply read_tables_Ok in Hrun
      as (hd & ext & metab & Hhd & _ & _ & Hext & Hmeta & ->).
    simpl_obj. split; [exact Hhd|]. split; [reflexivity|].
    by exists ext, metab.
  - intros e. unfold new_PupParser. rewrite ctor_verify.
    by destruct (PupParser_ctor false (unconstructed st)) as [[[]|e'] p1].
Qed.

End Construction.

(** ** Construction and lookup on the example archives *)

Example two_info_parser_constructed :
  example_new two_info_archive false = Ok two_info_parser
  /\ length (segEntries two_info_parser) = 3%nat
  /\ map id (segEntries two_info_parser) = [1; 0; 1]
  /\ map is_info (segEntries two_info_parser) = [false; true; true].
Proof. vm_compute. done. Qed.

Example scenario_parser_constructed :
  example_new scenario_archive false = Ok scenario_parser
  /\ segEntries scenario_parser =
       [mkPupSegmentEntry 0 false true false false false false false 93 36 16 3;
        mkPupSegmentEntry 0 true false false false false false true 129 6 0 0].
Proof. vm_compute. done. Qed.

(** Witnesses for the construction theorems. *)

Lemma invalid_header_fails_before_tables_witness :
  exists e p',
    @PupParser_ctor small_layout example_vault true
      (unconstructed (mkStream bad_magic_archive 0)) = (Err e, p')
    /\ example_new bad_magic_archive true = Err e
    /\ classify e = Some FormatError
    /\ segEntries p' = [] /\ segMetas p' = []
    /\ s p' = mkStream bad_magic_archive 12.
Proof.
  apply (@invalid_header_fails_before_tables small_layout example_vault
           (mkStream bad_magic_archive 0) true
           (@as_PupHeader small_layout (take 12 bad_magic_archive))).
  - reflexivity.
  - left. reflexivity.
Defined.

Example jig_archive_unsupported :
  example_new jig_archive false = Err (AssertionFailure A_no_JIG)
  /\ classify (AssertionFailure A_no_JIG) = Some UnsupportedFeatureError.
Proof. vm_compute. done. Qed.

Lemma constructed_tables_parallel_witness :
  tables_match two_info_parser
  /\ exists ext metab,
       @vault_decrypt example_vault (@vault_get example_vault "pup.hdr")
         (slice (@sizeof_PupHeader small_layout)
            (wrap64 (hdr_size (header two_info_parser)
                     - @sizeof_PupHeader small_layout))
            two_info_archive) = Ok ext
       /\ @vault_decrypt example_vault (@vault_get example_vault "pup.root_key")
            (slice (@sizeof_PupHeader small_layout
                    + wrap64 (hdr_size (header two_info_parser)
                              - @sizeof_PupHeader small_layout))
               (meta_size (header two_info_parser)) two_info_archive) = Ok metab
       /\ headerEx two_info_parser
          = @as_PupHeaderEx small_layout
              (slice 0 (@sizeof_PupHeaderEx small_layout) ext)
       /\ forall i : nat, Z.of_nat i < segment_count (headerEx two_info_parser) ->
            segEntries two_info_parser !! i
              = Some (@entry_at small_layout ext (Z.of_nat i))
            /\ segMetas two_info_parser !! i
              = Some (@meta_at small_layout metab (Z.of_nat i)).
Proof.
  apply (@constructed_tables_parallel small_layout example_vault
           (mkStream two_info_archive 0) false two_info_parser).
  vm_compute. reflexivity.
Defined.

Example verify_throws_unimplemented :
  example_new two_info_archive true = Err RuntimeError_Unimplemented
  /\ example_new bad_magic_archive true = Err (AssertionFailure A_magic).
Proof. vm_compute. done. Qed.

(** C10 as stated fails on an archive with a wrong magic: with [verify] the
    constructor throws the failed assertion, before any table is parsed. *)
Lemma bad_magic_throws_before_verify :
  ~ (forall (L : Layout) (V : CryptoVault),
       @verify_unimplemented_on_every_archive L V).
Proof.
  intros Hclaim.
  destruct (Hclaim small_layout example_vault (mkStream bad_magic_archive 0))
    as (p & Hthrow & _).
  vm_compute in Hthrow. discriminate Hthrow.
Qed.

Lemma find_id_lowest_content_index_witness :
  (forall i : Z, find_id 1 two_info_parser = Ok i ->
     0 <= i < segment_count (headerEx two_info_parser)
     /\ exists e, segEntries two_info_parser !! Z.to_nat i = Some e
          /\ id e = 1 /\ is_info e = false
          /\ forall (j : nat) e', (j < Z.to_nat i)%nat ->
               segEntries two_info_parser !! j = Some e' ->
               ~ (id e' = 1 /\ is_info e' = false))
  /\ ((exists e, e ∈ segEntries two_info_parser /\ id e = 1 /\ is_info e = false) ->
      exists i, find_id 1 two_info_parser = Ok i)
  /\ ((forall e, e ∈ segEntries two_info_parser -> id e = 1 -> is_info e = true) ->
      find_id 1 two_info_parser = Err OutOfRange_SegmentNotFound
      /\ classify OutOfRange_SegmentNotFound = Some NotFoundError).
Proof.
  apply (find_id_lowest_content_index two_info_parser 1).
  split; reflexivity.
Defined.

(** Id 1 is on a content segment and on an info segment: [find] returns the
    content one.  Id 0 is on an info segment only: not found. *)
Example find_id_examples :
  find_id 1 two_info_parser = Ok 0
  /\ find_id 0 two_info_parser = Err OutOfRange_SegmentNotFound
  /\ find_info 0 two_info_parser = Ok 1
  /\ find_info 1 two_info_parser = Ok 2.
Proof. vm_compute. done. Qed.

(** ** Extraction leaves the parser as it is *)

Lemma same_archive_refl (p : PupParser) : same_archive p p.
Proof. by repeat split. Qed.

Lemma same_archive_trans (p1 p2 p3 : PupParser) :
  same_archive p1 p2 -> same_archive p2 p3 -> same_archive p1 p3.
Proof.
  intros (? & ? & ? & ? & ?) (? & ? & ? & ? & ?). repeat split; congruence.
Qed.

Lemma frame_ret {A : Type} (a : A) : frame (ret a).
Proof. intros p. apply same_archive_refl. Qed.

Lemma frame_throw {A : Type} (e : exn) : frame (@throw PupParser A e).
Proof. intros p. apply same_archive_refl. Qed.

Lemma frame_lift {A : Type} (r : result A) : frame (lift r).
Proof. intros p. apply same_archive_refl. Qed.

Lemma frame_const_call {A : Type} (f : PupParser -> result A) : frame (const_call f).
Proof. intros p. apply same_archive_refl. Qed.

Lemma frame_bind {A B : Type} (m : M PupParser A) (k : A -> M PupParser B) :
  frame m -> (forall a, frame (k a)) -> frame (bind m k).
Proof.
  intros Hm Hk p. unfold bind. specialize (Hm p).
  destruct (m p) as [[a|e] p1]; cbn [snd] in *; [|done].
  eapply same_archive_trans; [exact Hm|apply Hk].
Qed.

Lemma frame_seek (off : Z) : frame (on_stream (Stream_seek off)).
Proof. intros p. by repeat split. Qed.

Lemma frame_read (n : Z) : frame (on_stream (Stream_read n)).
Proof.
  intros p. unfold on_stream, Stream_read.
  destruct (_ && _); by repeat split.
Qed.

Create HintDb frame.
#[local] Hint Resolve frame_ret frame_throw frame_lift frame_const_call
  frame_seek frame_read : frame.

Ltac frame_steps :=
  repeat first
    [ progress eauto with frame
    | apply frame_bind; [|intros ?]
    | match goal with |- frame (if ?c then _ else _) => destruct c end
    | match goal with |- frame (let '(_, _) := ?x in _) => destruct x end ].

Section Frame.
Context `{Layout, BlockCipher, CryptoVault, Zlib}.

Lemma frame_process_block entry meta extent left_size :
  frame (process_block entry meta extent left_size).
Proof. unfold process_block. frame_steps. Qed.

Lemma frame_process_extents extents : forall entry meta left_size segment,
  frame (process_extents extents entry meta left_size segment).
Proof.
  induction extents as [|extent rest IH]; intros; cbn [process_extents].
  - apply frame_ret.
  - apply frame_bind; [apply frame_process_block|]. intros r. apply IH.
Qed.

Lemma frame_get_blocked (index : Z) : frame (get_blocked index).
Proof.
  unfold get_blocked, get_info_index. frame_steps.
  apply frame_process_extents.
Qed.

#[local] Hint Resolve frame_get_blocked : frame.

Lemma frame_get (id' : Z) : frame (get id').
Proof. unfold get, get_nonblocked. frame_steps. Qed.

Lemma find_from_same (n : nat) : forall (i : Z) pred (p1 p2 : PupParser),
  same_archive p1 p2 -> find_from n i pred p1 = find_from n i pred p2.
Proof.
  induction n as [|n IH]; intros i pred p1 p2 Hsame; [done|].
  cbn [find_from]. destruct Hsame as (Hh & Hx & He & Hm & Hc).
  rewrite He, Hm. rewrite (IH (i + 1) pred p1 p2); by repeat split.
Qed.

Lemma find_same pred (p1 p2 : PupParser) :
  same_archive p1 p2 -> find pred p1 = find pred p2.
Proof.
  intros Hsame. unfold find.
  destruct Hsame as (Hh & Hx & He & Hm & Hc). rewrite Hx.
  apply find_from_same. by repeat split.
Qed.

Lemma uniform_const_bind {A B : Type} (f : PupParser -> result A)
    (k : A -> M PupParser B) :
  (forall p1 p2, same_archive p1 p2 -> f p1 = f p2) ->
  (forall a, uniform (k a)) ->
  uniform (bind (const_call f) k).
Proof.
  intros Hf Hk p1 p2 Hsame. unfold bind, const_call.
  rewrite (Hf p1 p2 Hsame). destruct (f p2) as [a|e]; [|done].
  by apply Hk.
Qed.

(** After an absolute seek the two objects are one. *)
Lemma uniform_seek_bind {B : Type} (off : Z) (k : unit -> M PupParser B) :
  uniform (bind (on_stream (Stream_seek off)) k).
Proof.
  intros p1 p2 (Hh & Hx & He & Hm & Hc). unfold bind, on_stream, Stream_seek.
  by rewrite Hh, Hx, He, Hm, Hc.
Qed.

Lemma uniform_throw {A : Type} (e : exn) : uniform (@throw PupParser A e).
Proof. by intros p1 p2 _. Qed.

Lemma uniform_get_blocked (index : Z) : uniform (get_blocked index).
Proof.
  unfold get_blocked, get_info_index.
  apply uniform_const_bind.
  { by intros p1 p2 (_ & _ & -> & _). }
  intros entry. apply uniform_const_bind.
  { by intros p1 p2 (_ & _ & _ & -> & _). }
  intros meta. apply uniform_const_bind.
  { intros p1 p2 Hsame. by apply find_same. }
  intros info_index. apply uniform_const_bind.
  { by intros p1 p2 (_ & _ & -> & _). }
  intros info_entry. apply uniform_const_bind.
  { by intros p1 p2 (_ & _ & _ & -> & _). }
  intros info_meta. apply uniform_seek_bind.
Qed.

Lemma uniform_get (id' : Z) : uniform (get id').
Proof.
  unfold get, get_nonblocked.
  apply uniform_const_bind.
  { intros p1 p2 Hsame. by apply find_same. }
  intros index. apply uniform_const_bind.
  { by intros p1 p2 (_ & _ & -> & _). }
  intros entry. destruct (has_blocks entry).
  - apply uniform_get_blocked.
  - apply uniform_throw.
Qed.

(** C9.  A call of [get] that stays within defined behaviour, returning or
    throwing, leaves the header, the header extension, both tables and the
    bytes of the stream as they were (only the stream position moves); its
    result is a function of the id, the tables and the stream bytes alone,
    so calling [get] again with the same id, on the object the first call
    left or on any object with the same tables and bytes, gives the same
    buffer or the same exception.  Nothing is said of a run that meets
    undefined behaviour. *)
Theorem get_leaves_parser_and_repeats (id' : Z) (p : PupParser) :
  (forall u, fst (get id' p) <> Err (Undefined u)) ->
  let r := get id' p in
  (header (snd r) = header p /\ headerEx (snd r) = headerEx p
   /\ segEntries (snd r) = segEntries p /\ segMetas (snd r) = segMetas p
   /\ contents (s (snd r)) = contents (s p))
  /\ fst (get id' (snd r)) = fst r
  /\ (forall u, fst (get id' (snd r)) <> Err (Undefined u))
  /\ forall p2, same_archive p p2 ->
       fst (get id' p2) = fst r
       /\ same_archive p2 (snd (get id' p2)).
Proof.
  intros Hdefined. cbn zeta. pose proof (frame_get id' p) as Hframe.
  assert (Hagain : fst (get id' (snd (get id' p))) = fst (get id' p)).
  { symmetry. by apply uniform_get. }
  split; [|split; [|split]].
  - destruct Hframe as (? & ? & ? & ? & ?). by repeat split.
  - exact Hagain.
  - intros u. rewrite Hagain. apply Hdefined.
  - intros p2 Hsame. split; [symmetry; by apply uniform_get|apply frame_get].
Qed.

End Frame.

(** [get(1)] on the archive with two info segments returns the payload. *)
Lemma get_leaves_parser_and_repeats_witness :
  let r := example_get 1 two_info_parser in
  (header (snd r) = header two_info_parser
   /\ headerEx (snd r) = headerEx two_info_parser
   /\ segEntries (snd r) = segEntries two_info_parser
   /\ segMetas (snd r) = segMetas two_info_parser
   /\ contents (s (snd r)) = contents (s two_info_parser))
  /\ fst (example_get 1 (snd r)) = fst r
  /\ (forall u, fst (example_get 1 (snd r)) <> Err (Undefined u))
  /\ forall p2, same_archive two_info_parser p2 ->
       fst (example_get 1 p2) = fst r
       /\ same_archive p2 (snd (example_get 1 p2)).
Proof.
  apply (@get_leaves_parser_and_repeats small_layout shift_cipher example_vault
           stored_zlib 1 two_info_parser).
  intros u. vm_compute. discriminate.
Defined.

(** ** The blocked path *)

Lemma const_call_Ok {A : Type} (f : PupParser -> result A) (p p' : PupParser) (a : A) :
  const_call f p = (Ok a, p') -> f p = Ok a /\ p' = p.
Proof. unfold const_call. by intros [= -> ->]. Qed.

Section Blocked.
Context `{Layout, BlockCipher, CryptoVault, Zlib}.

Lemma process_block_Ok entry meta extent left_size (p p' : PupParser) added left' :
  process_block entry meta extent left_size p = (Ok (added, left'), p') ->
  exists block,
    (if is_encrypted entry
     then vault_decrypt (segment_key meta) (raw_block (contents (s p)) entry extent)
          = Ok block
     else block = raw_block (contents (s p)) entry extent)
    /\ emit_block entry block (cur_zsize_of extent)
         (Z.min (block_size entry) left_size) = Ok added
    /\ left' = left_size - Z.min (block_size entry) left_size
    /\ same_archive p p'
    /\ Z.of_nat (length (raw_block (contents (s p)) entry extent))
       = ext_size extent.
Proof.
  intros Hrun.
  pose proof (frame_process_block entry meta extent left_size p) as Hframe.
  rewrite Hrun in Hframe. cbn [snd] in Hframe.
  unfold process_block in Hrun.
  step_in Hrun. injection Hm as _ <-.
  step_in Hrun as raw. apply on_stream_read_Ok in Hm as (-> & -> & Hlen). simpl_obj.
  step_in Hrun as block.
  step_in Hrun as added'. apply lift_Ok in Hm0 as [Hemit ->].
  injection Hrun as <- <- <-.
  exists block. fold (raw_block (contents (s p)) entry extent) in Hm, Hlen.
  split; [|done].
  destruct (is_encrypted entry).
  - by apply lift_Ok in Hm as [Hdec _].
  - by injection Hm as <- _.
Qed.

Lemma process_extents_Ok extents : forall entry meta left_size segment
    (p p' : PupParser) out,
  process_extents extents entry meta left_size segment p = (Ok out, p') ->
  exists blocks tail,
    Forall2 (fun extent block =>
      if is_encrypted entry
      then vault_decrypt (segment_key meta) (raw_block (contents (s p)) entry extent)
           = Ok block
      else block = raw_block (contents (s p)) entry extent) extents blocks
    /\ emit_all entry blocks extents left_size = Ok tail
    /\ out = segment ++ tail.
Proof.
  induction extents as [|extent rest IH]; intros entry meta left_size segment p p' out Hrun.
  - injection Hrun as <- _. exists [], []. by rewrite app_nil_r.
  - cbn [process_extents] in Hrun. step_in Hrun as r. destruct r as [added left'].
    apply process_block_Ok in Hm as (block & Hblock & Hemit & -> & Hsame & _).
    cbn [fst snd] in Hrun.
    apply IH in Hrun as (blocks & tail & Hall & Hrest & ->).
    destruct Hsame as (_ & _ & _ & _ & Hbytes). rewrite <- Hbytes in Hall.
    exists (block :: blocks), (added ++ tail). split; [by constructor|].
    split; [|by rewrite app_assoc].
    cbn [emit_all]. by rewrite Hemit, Hrest.
Qed.

(** What a returning [get_blocked] went through. *)
Lemma get_blocked_Ok (index : Z) (p p' : PupParser) (out : Buffer) :
  get_blocked index p = (Ok out, p') ->
  exists entry meta info_index info_entry info_meta info_buffer tables p1,
    at_index (segEntries p) index = Ok entry
    /\ at_index (segMetas p) index = Ok meta
    /\ find_info index p = Ok info_index
    /\ at_index (segEntries p) info_index = Ok info_entry
    /\ at_index (segMetas p) info_index = Ok info_meta
    /\ (if is_encrypted info_entry
        then pup_decrypt
               (slice (offset info_entry) (file_size info_entry) (contents (s p)))
               info_meta
        else Ok (slice (offset info_entry) (file_size info_entry) (contents (s p))))
       = Ok info_buffer
    /\ is_compressed info_entry = false
    /\ fst (read_info info_entry (block_count entry) (mkStream info_buffer 0))
       = Ok tables
    /\ same_archive p p1
    /\ process_extents (snd tables) entry meta (file_size entry) [] p1 = (Ok out, p').
Proof.
  intros Hrun. unfold get_blocked, get_info_index in Hrun.
  step_in Hrun as entry. apply const_call_Ok in Hm as [Hentry ->].
  step_in Hrun as meta. apply const_call_Ok in Hm as [Hmeta ->].
  step_in Hrun as info_index. apply const_call_Ok in Hm as [Hinfo ->].
  step_in Hrun as info_entry. apply const_call_Ok in Hm as [Hie ->].
  step_in Hrun as info_meta. apply const_call_Ok in Hm as [Him ->].
  step_in Hrun. injection Hm as _ <-.
  step_in Hrun as raw. apply on_stream_read_Ok in Hm as (-> & -> & _). simpl_obj.
  step_in Hrun as info_buffer.
  step_in Hrun.
  step_in Hrun as tables. apply lift_Ok in Hm1 as [Htables ->].
  exists entry, meta, info_index, info_entry, info_meta, info_buffer, tables, p1.
  assert (Hbuf : (if is_encrypted info_entry
        then pup_decrypt
               (slice (offset info_entry) (file_size info_entry) (contents (s p)))
               info_meta
        else Ok (slice (offset info_entry) (file_size info_entry) (contents (s p))))
       = Ok info_buffer /\ same_archive p p0).
  { destruct (is_encrypted info_entry).
    - apply lift_Ok in Hm as [-> ->]. by repeat split.
    - injection Hm as -> <-. by repeat split. }
  destruct Hbuf as [Hbuf Hsame].
  assert (Hcomp : is_compressed info_entry = false /\ p1 = p0).
  { destruct (is_compressed info_entry); [discriminate|]. by injection Hm0 as _ <-. }
  destruct Hcomp as [Hcomp ->].
  repeat (split; [done|]). exact Hrun.
Qed.

(** One iteration of the loop, as a function of the stream's bytes. *)
Lemma process_block_fst entry meta extent left_size (p : PupParser) :
  fst (process_block entry meta extent left_size p) =
    if stream_serves (contents (s p))
         (wrap64 (offset entry + ext_offset extent)) (ext_size extent)
    then
      match decrypted_block entry meta (raw_block (contents (s p)) entry extent) with
      | Ok block =>
          match emit_block entry block (cur_zsize_of extent)
                  (Z.min (block_size entry) left_size) with
          | Ok added => Ok (added, left_size - Z.min (block_size entry) left_size)
          | Err e => Err e
          end
      | Err e => Err e
      end
    else Err StreamError.
Proof.
  unfold process_block, decrypted_block, stream_serves, raw_block.
  unfold bind at 1. cbn [on_stream Stream_seek].
  unfold bind at 1. unfold on_stream at 1, Stream_read. simpl_obj.
  destruct (_ && _); [|done].
  unfold bind at 1.
  destruct (is_encrypted entry).
  - unfold lift at 1. fold (segment_key meta).
    destruct (vault_decrypt _ _) as [block|e]; [|done].
    unfold bind, lift, ret. by destruct (emit_block _ _ _ _).
  - unfold ret at 1. unfold bind, lift, ret. by destruct (emit_block _ _ _ _).
Qed.

Lemma find_info_Ok (index : Z) (p : PupParser) (info_index : Z) :
  find_info index p = Ok info_index ->
  exists info_entry,
    segEntries p !! Z.to_nat info_index = Some info_entry
    /\ id info_entry = index /\ is_info info_entry = true.
Proof.
  unfold find_info, find. change 0 with (Z.of_nat 0).
  intros (k & e & m & -> & _ & He & _ & Hp & _)%find_from_Ok.
  rewrite Nat2Z.id. exists e. apply andb_prop in Hp as [Hid Hinfo].
  by apply Z.eqb_eq in Hid.
Qed.

(** The loop over the extents begins every iteration with an absolute
    seek: what it returns does not depend on where the stream stands. *)
Lemma process_extents_uniform extents entry meta left_size segment :
  uniform (process_extents extents entry meta left_size segment).
Proof.
  destruct extents as [|extent rest]; [by intros p1 p2 _|].
  cbn [process_extents]. unfold process_block.
  intros p1 p2 (Hh & Hx & He & Hm & Hc).
  unfold bind at 1 2. unfold bind at 2 4. unfold on_stream at 1 3, Stream_seek.
  by rewrite Hh, Hx, He, Hm, Hc.
Qed.

(** C1 (amended).  A blocked extraction [get_blocked(index)] resolves its
    information segment as [find_info(index)], from the target's index in
    the table, and works from that segment: when it returns, the entry at
    [find_info(index)] is the lowest entry that is an info segment and whose
    id equals [index], the bytes parsed into digests and extents are the
    bytes of that entry in the stream ([pup_decrypt]ed under that entry's
    meta when it is encrypted), and the output is what the loop over these
    extents returns for the target entry and its meta; and when
    [find_info(index)] throws, [get_blocked(index)] throws the same
    exception. *)
Theorem get_blocked_info_by_index (index : Z) (p : PupParser) :
  (forall out p', get_blocked index p = (Ok out, p') ->
     exists entry meta info_index info_entry info_meta info_buffer digests
            extents,
       at_index (segEntries p) index = Ok entry
       /\ at_index (segMetas p) index = Ok meta
       /\ get_info_index index p = (Ok info_index, p)
       /\ find_info index p = Ok info_index
       /\ segEntries p !! Z.to_nat info_index = Some info_entry
       /\ segMetas p !! Z.to_nat info_index = Some info_meta
       /\ is_info info_entry = true /\ id info_entry = index
       /\ (forall (j : nat) e', (j < Z.to_nat info_index)%nat ->
             segEntries p !! j = Some e' ->
             ~ (id e' = index /\ is_info e' = true))
       /\ (if is_encrypted info_entry
           then pup_decrypt
                  (slice (offset info_entry) (file_size info_entry)
                     (contents (s p))) info_meta
           else Ok (slice (offset info_entry) (file_size info_entry)
                      (contents (s p))))
          = Ok info_buffer
       /\ is_compressed info_entry = false
       /\ fst (read_info info_entry (block_count entry)
                 (mkStream info_buffer 0)) = Ok (digests, extents)
       /\ fst (process_extents extents entry meta (file_size entry) [] p)
          = Ok out)
  /\ (forall entry meta e,
        at_index (segEntries p) index = Ok entry ->
        at_index (segMetas p) index = Ok meta ->
        find_info index p = Err e ->
        get_blocked index p = (Err e, p)).
Proof.
  split.
  - intros out p' Hrun.
    apply get_blocked_Ok in Hrun
      as (entry & meta & info_index & info_entry & info_meta & info_buffer
          & [digests extents] & p1 & Hentry & Hmeta & Hinfo & Hie & Him & Hbuf
          & Hcomp & Htables & Hsame & Hrun).
    exists entry, meta, info_index, info_entry, info_meta, info_buffer,
      digests, extents.
    pose proof Hinfo as Hfirst. unfold find_info, find in Hfirst.
    change 0 with (Z.of_nat 0) in Hfirst.
    apply find_from_Ok
      in Hfirst as (k & e & m & -> & _ & He & Hm & Hp & Hlow).
    rewrite at_index_nat, He in Hie. injection Hie as ->.
    rewrite at_index_nat, Hm in Him. injection Him as ->.
    rewrite Nat2Z.id. apply andb_prop in Hp as [Hid%Z.eqb_eq Hflag].
    repeat (split; [done|]). split.
    { unfold get_info_index, const_call. by rewrite Hinfo. }
    repeat (split; [done|]). split.
    { intros j e' Hj He' [Hid' Hflag'].
      destruct (lookup_lt_is_Some_2 (segMetas p) j) as [m' Hm'].
      { apply lookup_lt_Some in Hm. lia. }
      specialize (Hlow j e' m' ltac:(lia) He' Hm').
      rewrite Hid', Hflag', Z.eqb_refl in Hlow. discriminate. }
    repeat (split; [done|]).
    rewrite (process_extents_uniform extents entry meta (file_size entry) []
               p p1 Hsame).
    cbn [snd] in Hrun. by rewrite Hrun.
  - intros entry meta e Hentry Hmeta Hinfo.
    unfold get_blocked, get_info_index, bind, const_call.
    by rewrite Hentry, Hmeta, Hinfo.
Qed.

(** C5 (amended).  For a block of a compressed segment the extractor calls
    the primitive on the first [cur_zsize] bytes of the block, with
    [cur_zsize = (extent.size & ~0xF) - (extent.size & 0xF)] in the unsigned
    arithmetic of the extent's size, and with room for [cur_size] bytes.
    The status the primitive returns is not looked at: whatever it is, the
    block's [cur_size] output bytes are the bytes the primitive wrote,
    zeros behind them, and the extraction goes on. *)
Theorem compressed_block_status_ignored entry meta extent left_size
    (p : PupParser) block :
  is_compressed entry = true ->
  stream_serves (contents (s p))
    (wrap64 (offset entry + ext_offset extent)) (ext_size extent) = true ->
  decrypted_block entry meta (raw_block (contents (s p)) entry extent) = Ok block ->
  cur_zsize_of extent <= Z.of_nat (length block) ->
  let cur_size := Z.min (block_size entry) left_size in
  let call := uncompress (slice 0 (cur_zsize_of extent) block) cur_size in
  fst (process_block entry meta extent left_size p) =
    Ok (overwrite_prefix (snd call) (replicate (Z.to_nat cur_size) 0),
        left_size - cur_size)
  /\ Z.of_nat (length (overwrite_prefix (snd call)
                         (replicate (Z.to_nat cur_size) 0))) = Z.max 0 cur_size
  /\ cur_zsize_of extent =
       (Z.land (ext_size extent) (Z.lnot 0xF) - Z.land (ext_size extent) 0xF)
         mod 2 ^ extent_bits.
Proof.
  intros Hcomp Hserve Hblock Hz. cbn zeta.
  rewrite process_block_fst, Hserve, Hblock.
  unfold emit_block. rewrite Hcomp.
  replace (_ <=? _) with true by (symmetry; by apply Z.leb_le).
  destruct (uncompress _ _) as [status written]. cbn [snd].
  split; [done|]. split; [|done].
  rewrite length_overwrite_prefix, length_replicate. lia.
Qed.

(** Without wrap-around [cur_zsize] is the size less twice its low four
    bits. *)
Lemma cur_zsize_of_no_wrap (extent : PupExtent) :
  16 <= ext_size extent < 2 ^ extent_bits ->
  cur_zsize_of extent = ext_size extent - 2 * (ext_size extent mod 16).
Proof.
  intros Hsize. unfold cur_zsize_of. rewrite land_0xF, land_lnot_0xF.
  pose proof (Z.div_mod (ext_size extent) 16).
  pose proof (Z.mod_pos_bound (ext_size extent) 16).
  assert (1 <= ext_size extent / 16) by (apply Z.div_le_lower_bound; lia).
  rewrite Z.mod_small; lia.
Qed.

(** A block of an uncompressed segment that is longer than the [cur_size]
    bytes reserved for it is copied past the end of the output. *)
Lemma emit_block_overflow entry block cur_zsize cur_size :
  is_compressed entry = false -> cur_size < Z.of_nat (length block) ->
  emit_block entry block cur_zsize cur_size = Err (Undefined OutOfBoundsWrite).
Proof.
  intros Hcomp Hlong. unfold emit_block. rewrite Hcomp.
  by replace (_ <=? _) with false by (symmetry; apply Z.leb_gt; lia).
Qed.

Lemma emit_block_fits entry block cur_zsize cur_size :
  is_compressed entry = false -> Z.of_nat (length block) <= cur_size ->
  emit_block entry block cur_zsize cur_size =
    Ok (block ++ replicate (Z.to_nat cur_size - length block) 0).
Proof.
  intros Hcomp Hfit. unfold emit_block. rewrite Hcomp.
  replace (_ <=? _) with true by (symmetry; apply Z.leb_le; lia).
  rewrite overwrite_prefix_exact by (rewrite length_replicate; lia).
  by rewrite drop_replicate.
Qed.

End Blocked.

(** ** The blocked path on the example archives *)

(** The content segment at index 0 has id 1.  Its blocks are listed by the
    info segment with id 0, the target's index, and [get(1)] assembles the
    36 payload bytes from these extents. *)
Example two_info_get :
  fst (example_get 1 two_info_parser) = Ok payload36.
Proof. vm_compute. reflexivity. Qed.

(** C1 as stated fails: the info segment [get_blocked(0)] selects is the
    entry at index 1, whose id 0 is not the id 1 of the target entry;
    [find_info] of the target's id is the entry at index 2. *)
Lemma info_segment_not_by_entry_id : ~ info_resolved_by_entry_id.
Proof.
  intros Hclaim.
  specialize (Hclaim 0 two_info_parser
    (mkPupSegmentEntry 1 false true false false false false false 133 36 16 3)
    1 eq_refl eq_refl).
  vm_compute in Hclaim. discriminate Hclaim.
Qed.

Example two_info_resolution :
  fst (example_get_blocked 0 two_info_parser) = Ok payload36
  /\ get_info_index 0 two_info_parser = (Ok 1, two_info_parser)
  /\ id <$> segEntries two_info_parser !! 0%nat = Some 1
  /\ id <$> segEntries two_info_parser !! 1%nat = Some 0
  /\ find_info 1 two_info_parser = Ok 2.
Proof. vm_compute. done. Qed.

(** C2: on the scenario of the specification the third block is 20 bytes
    long and 4 bytes are left of the file: the [memcpy] of the whole block
    runs 16 bytes past the end of the output. *)
Theorem scenario_copies_past_output :
  fst (example_get 0 scenario_parser) = Err (Undefined OutOfBoundsWrite).
Proof. vm_compute. reflexivity. Qed.

(** Both blocks decrypt to the same plaintext: the second block starts from
    the segment's IV again, not from the first block's ciphertext. *)
Example encrypted_get :
  example_new encrypted_archive false = Ok encrypted_parser
  /\ at_index (segEntries encrypted_parser) 0 = Ok encrypted_entry
  /\ at_index (segMetas encrypted_parser) 0 = Ok encrypted_meta
  /\ exists plain,
       @cbc_decrypt shift_cipher (data_key encrypted_meta)
         (data_iv encrypted_meta) cipher_block = plain
       /\ fst (example_get 0 encrypted_parser) = Ok (plain ++ plain).
Proof.
  split; [vm_compute; reflexivity|]. split; [vm_compute; reflexivity|].
  split; [vm_compute; reflexivity|].
  eexists. split; [reflexivity|]. vm_compute. reflexivity.
Qed.

(** [uncompress] reports Z_BUF_ERROR, and [get] returns the zeroed block. *)
Example compressed_get :
  example_new compressed_archive false = Ok compressed_parser
  /\ at_index (segEntries compressed_parser) 0 = Ok compressed_entry
  /\ @cur_zsize_of small_layout (mkPupExtent 0 32) = 32
  /\ fst (@uncompress stored_zlib (cipher_block ++ cipher_block) 16) = Z_BUF_ERROR
  /\ fst (example_get 0 compressed_parser) = Ok (replicate 16 0).
Proof. vm_compute. done. Qed.

(** C5 as stated fails on that block. *)
Lemma decompress_failure_does_not_throw :
  ~ (forall (L : Layout) (V : CryptoVault) (Zl : Zlib),
       @decompress_failure_throws L V Zl).
Proof.
  intros Hclaim.
  destruct (Hclaim small_layout example_vault stored_zlib
    compressed_entry encrypted_meta (mkPupExtent 0 32) 16 compressed_parser
    (cipher_block ++ cipher_block) eq_refl eq_refl eq_refl) as [e He].
  - apply Z.leb_le. reflexivity.
  - vm_compute. discriminate.
  - vm_compute in He. discriminate He.
Qed.

Lemma compressed_block_status_ignored_witness :
  is_compressed compressed_entry = true
  /\ fst (example_process_block compressed_entry encrypted_meta
            (mkPupExtent 0 32) 16 compressed_parser)
     = Ok (replicate 16 0, 0).
Proof.
  split; [reflexivity|].
  apply (proj1 (@compressed_block_status_ignored small_layout example_vault
                  stored_zlib compressed_entry encrypted_meta (mkPupExtent 0 32)
                  16 compressed_parser (cipher_block ++ cipher_block)
                  eq_refl eq_refl eq_refl
                  (proj1 (Z.leb_le 32 32) eq_refl))).
Defined.

(** * Further properties of the decoder *)

(** ** The resolver, for any predicate *)

Section ResolverMore.

(** The first row on which a predicate holds. *)
Definition first_match (pred : PupSegmentEntry -> PupSegmentMeta -> bool)
    (p : PupParser) (k : nat) : Prop :=
  (exists e m, segEntries p !! k = Some e /\ segMetas p !! k = Some m
               /\ pred e m = true)
  /\ forall (j : nat) e' m', (j < k)%nat ->
       segEntries p !! j = Some e' -> segMetas p !! j = Some m' ->
       pred e' m' = false.

Lemma first_match_unique pred (p : PupParser) (k1 k2 : nat) :
  first_match pred p k1 -> first_match pred p k2 -> k1 = k2.
Proof.
  intros [(e1 & m1 & He1 & Hm1 & Hp1) Hlow1] [(e2 & m2 & He2 & Hm2 & Hp2) Hlow2].
  destruct (Nat.lt_trichotomy k1 k2) as [Hlt|[Heq|Hgt]]; [|done|].
  - rewrite (Hlow2 k1 e1 m1 Hlt He1 Hm1) in Hp1. discriminate.
  - rewrite (Hlow1 k2 e2 m2 Hgt He2 Hm2) in Hp2. discriminate.
Qed.

Lemma find_Ok_first_match pred (p : PupParser) (i : Z) :
  find pred p = Ok i ->
  exists k : nat, i = Z.of_nat k /\ first_match pred p k
                  /\ Z.of_nat k < segment_count (headerEx p).
Proof.
  unfold find. change 0 with (Z.of_nat 0).
  intros (k & e & m & -> & Hk & He & Hm & Hp & Hlow)%find_from_Ok.
  exists k. split; [done|]. split; [|lia]. split; [by exists e, m|].
  intros j e' m' Hj. apply Hlow. lia.
Qed.

Lemma find_Err_no_match pred (p : PupParser) (x : exn) :
  tables_match p -> find pred p = Err x ->
  x = OutOfRange_SegmentNotFound
  /\ forall (k : nat) e m, segEntries p !! k = Some e ->
       segMetas p !! k = Some m -> pred e m = false.
Proof.
  intros Hwf. destruct (tables_match_lengths p Hwf) as [Hle Hlm].
  unfold find. change 0 with (Z.of_nat 0).
  intros [-> Hnone]%find_from_Err; [|lia|lia]. split; [done|].
  intros k e m He Hm. apply (Hnone k e m); [|done|done].
  pose proof (lookup_lt_Some _ _ _ He). lia.
Qed.

(** X3.  On a parser whose two tables have [segment_count] rows,
    [find(pred)] returns index [k] exactly when [k] is the first row on
    which the predicate holds, and throws exactly when it holds on no row;
    the only exception it throws is std::out_of_range. *)
Theorem find_first_match pred (p : PupParser) :
  tables_match p ->
  (forall k : nat, find pred p = Ok (Z.of_nat k) <-> first_match pred p k)
  /\ (forall i : Z, find pred p = Ok i -> 0 <= i < segment_count (headerEx p))
  /\ (find pred p = Err OutOfRange_SegmentNotFound <->
      forall (k : nat) e m, segEntries p !! k = Some e ->
        segMetas p !! k = Some m -> pred e m = false)
  /\ (forall x, find pred p = Err x -> x = OutOfRange_SegmentNotFound).
Proof.
  intros Hwf. split; [|split; [|split]].
  - intros k. split.
    + intros (k' & Hk & Hfirst & _)%find_Ok_first_match.
      apply Nat2Z.inj in Hk. by subst k'.
    + intros Hfirst. destruct (find pred p) as [i|x] eqn:Hf.
      * apply find_Ok_first_match in Hf as (k' & -> & Hfirst' & _).
        by rewrite (first_match_unique pred p k k' Hfirst Hfirst').
      * apply (find_Err_no_match pred p x Hwf) in Hf as [_ Hnone].
        destruct Hfirst as [(e & m & He & Hm & Hp) _].
        rewrite (Hnone k e m He Hm) in Hp. discriminate.
  - intros i (k & -> & _ & Hlt)%find_Ok_first_match. lia.
  - split.
    + intros Hf. by apply (find_Err_no_match pred p _ Hwf) in Hf as [_ Hnone].
    + intros Hnone. destruct (find pred p) as [i|x] eqn:Hf.
      * apply find_Ok_first_match
          in Hf as (k & _ & [(e & m & He & Hm & Hp) _] & _).
        rewrite (Hnone k e m He Hm) in Hp. discriminate.
      * by apply (find_Err_no_match pred p x Hwf) in Hf as [-> _].
  - intros x Hf. by apply (find_Err_no_match pred p x Hwf) in Hf as [-> _].
Qed.

(** X4.  On a parser whose two tables have [segment_count] rows,
    [find_info(id)] returns the lowest index whose entry is an info segment
    with this id and throws std::out_of_range when there is none; the index
    it returns is never one that [find] returns for a content id, so a row
    is resolved as content or as info, not as both. *)
Theorem find_info_lowest_info_index (p : PupParser) (id' : Z) :
  tables_match p ->
  (forall i : Z, find_info id' p = Ok i ->
     0 <= i < segment_count (headerEx p)
     /\ (exists e, segEntries p !! Z.to_nat i = Some e
           /\ id e = id' /\ is_info e = true)
     /\ (forall (j : nat) e', (j < Z.to_nat i)%nat ->
           segEntries p !! j = Some e' ->
           ~ (id e' = id' /\ is_info e' = true))
     /\ forall id2, find_id id2 p <> Ok i)
  /\ ((exists e, e ∈ segEntries p /\ id e = id' /\ is_info e = true) ->
      exists i, find_info id' p = Ok i)
  /\ ((forall e, e ∈ segEntries p -> id e = id' -> is_info e = false) ->
      find_info id' p = Err OutOfRange_SegmentNotFound).
Proof.
  intros Hwf. destruct (tables_match_lengths p Hwf) as [Hle Hlm].
  assert (Hpred : forall e (m : PupSegmentMeta),
    (id e =? id') && is_info e = true <-> id e = id' /\ is_info e = true).
  { intros e m. by rewrite andb_true_iff, Z.eqb_eq. }
  split; [|split].
  - intros i Hf. unfold find_info in Hf.
    apply find_Ok_first_match
      in Hf as (k & -> & [(e & m & He & Hm & Hp) Hlow] & Hlt).
    rewrite Nat2Z.id. apply Hpred in Hp as [Hid Hinfo]; [|done].
    split; [lia|]. split; [by exists e|]. split.
    + intros j e' Hj He' Hmatch.
      destruct (lookup_lt_is_Some_2 (segMetas p) j) as [m' Hm']; [lia|].
      apply (Hpred e' m') in Hmatch.
      rewrite (Hlow j e' m' Hj He' Hm') in Hmatch. discriminate.
    + intros id2 Hcontent. unfold find_id in Hcontent.
      apply find_Ok_first_match
        in Hcontent as (k' & Hk & [(e2 & m2 & He2 & _ & Hp2) _] & _).
      apply Nat2Z.inj in Hk. subst k'.
      rewrite He in He2. injection He2 as <-.
      apply andb_prop in Hp2 as [_ Hp2]. rewrite Hinfo in Hp2. discriminate.
  - intros (e & Hin & Hid & Hinfo). unfold find_info.
    destruct (find _ p) as [r|x] eqn:Hf; [by exists r|].
    apply (find_Err_no_match _ p x Hwf) in Hf as [_ Hnone].
    apply list_elem_of_lookup in Hin as [j Hj].
    pose proof (lookup_lt_Some _ _ _ Hj) as Hlt.
    destruct (lookup_lt_is_Some_2 (segMetas p) j) as [m Hm]; [lia|].
    assert (Hp : (id e =? id') && is_info e = true) by (by apply (Hpred e m)).
    rewrite (Hnone j e m Hj Hm) in Hp. discriminate.
  - intros Honly. unfold find_info.
    destruct (find _ p) as [r|x] eqn:Hf.
    + apply find_Ok_first_match
        in Hf as (k & _ & [(e & m & He & _ & Hp) _] & _).
      apply (Hpred e m) in Hp as [Hid Hinfo].
      rewrite (Honly e) in Hinfo; [discriminate| |done].
      apply list_elem_of_lookup. by exists k.
    + by apply (find_Err_no_match _ p x Hwf) in Hf as [-> _].
Qed.

End ResolverMore.

Lemma find_first_match_witness :
  (forall k : nat,
     find (fun e _ => is_info e) two_info_parser = Ok (Z.of_nat k)
     <-> first_match (fun e _ => is_info e) two_info_parser k)
  /\ (forall i : Z, find (fun e _ => is_info e) two_info_parser = Ok i ->
        0 <= i < segment_count (headerEx two_info_parser))
  /\ (find (fun e _ => is_info e) two_info_parser
        = Err OutOfRange_SegmentNotFound <->
      forall (k : nat) e m, segEntries two_info_parser !! k = Some e ->
        segMetas two_info_parser !! k = Some m -> is_info e = false)
  /\ (forall x, find (fun e _ => is_info e) two_info_parser = Err x ->
        x = OutOfRange_SegmentNotFound).
Proof.
  apply (find_first_match (fun e _ => is_info e) two_info_parser).
  split; reflexivity.
Defined.

Lemma find_info_lowest_info_index_witness :
  (forall i : Z, find_info 1 two_info_parser = Ok i ->
     0 <= i < segment_count (headerEx two_info_parser)
     /\ (exists e, segEntries two_info_parser !! Z.to_nat i = Some e
           /\ id e = 1 /\ is_info e = true)
     /\ (forall (j : nat) e', (j < Z.to_nat i)%nat ->
           segEntries two_info_parser !! j = Some e' ->
           ~ (id e' = 1 /\ is_info e' = true))
     /\ forall id2, find_id id2 two_info_parser <> Ok i)
  /\ ((exists e, e ∈ segEntries two_info_parser /\ id e = 1 /\ is_info e = true) ->
      exists i, find_info 1 two_info_parser = Ok i)
  /\ ((forall e, e ∈ segEntries two_info_parser -> id e = 1 -> is_info e = false) ->
      find_info 1 two_info_parser = Err OutOfRange_SegmentNotFound).
Proof.
  apply (find_info_lowest_info_index two_info_parser 1).
  split; reflexivity.
Defined.

(** ** [get] on ids without blocked content *)

Section GetEarly.
Context `{Layout, BlockCipher, CryptoVault, Zlib}.

(** X5.  On a parser whose two tables have [segment_count] rows, [get(id)]
    throws before it touches the stream, the object and the stream position
    staying as they were: std::out_of_range when the id is on no content
    entry (absent, or on info segments only), and
    std::runtime_error("Unimplemented") when the content entry [find]
    resolves has no blocks. *)
Theorem get_without_blocked_content (p : PupParser) (id' : Z) :
  tables_match p ->
  ((forall e, e ∈ segEntries p -> id e = id' -> is_info e = true) ->
   get id' p = (Err OutOfRange_SegmentNotFound, p))
  /\ (forall i e, find_id id' p = Ok i ->
        segEntries p !! Z.to_nat i = Some e -> has_blocks e = false ->
        get id' p = (Err RuntimeError_Unimplemented, p)).
Proof.
  intros Hwf. split.
  - intros Honly. unfold get, bind, const_call.
    destruct (find_id id' p) as [i|x] eqn:Hf.
    + unfold find_id in Hf.
      apply find_Ok_first_match
        in Hf as (k & _ & [(e & m & He & _ & Hp) _] & _).
      apply andb_prop in Hp as [Hid Hinfo]. apply Z.eqb_eq in Hid.
      rewrite (Honly e) in Hinfo; [discriminate| |done].
      apply list_elem_of_lookup. by exists k.
    + unfold find_id in Hf.
      by apply (find_Err_no_match _ p x Hwf) in Hf as [-> _].
  - intros i e Hf He Hblocks. unfold get, get_nonblocked, bind, const_call.
    rewrite Hf. unfold at_index. by rewrite He, Hblocks.
Qed.

End GetEarly.

Definition plain_archive : Buffer :=
  make_archive 0x4F 0
    [entry_row 7 0 77 4 0 0; entry_row 9 F_INFO 77 4 0 0] [1; 2; 3; 4].

Definition plain_parser : PupParser := parser_of plain_archive.

Lemma get_without_blocked_content_witness :
  ((forall e, e ∈ segEntries plain_parser -> id e = 9 -> is_info e = true) ->
   example_get 9 plain_parser = (Err OutOfRange_SegmentNotFound, plain_parser))
  /\ (forall i e, find_id 7 plain_parser = Ok i ->
        segEntries plain_parser !! Z.to_nat i = Some e -> has_blocks e = false ->
        example_get 7 plain_parser = (Err RuntimeError_Unimplemented, plain_parser)).
Proof.
  split.
  - apply (proj1 (@get_without_blocked_content small_layout shift_cipher
                    example_vault stored_zlib plain_parser 9
                    (conj eq_refl eq_refl))).
  - apply (proj2 (@get_without_blocked_content small_layout shift_cipher
                    example_vault stored_zlib plain_parser 7
                    (conj eq_refl eq_refl))).
Defined.

(** The archive constructs; id 9 is on an info segment only and id 7 on a
    content segment without blocks. *)
Example plain_archive_gets :
  example_new plain_archive false = Ok plain_parser
  /\ fst (example_get 9 plain_parser) = Err OutOfRange_SegmentNotFound
  /\ fst (example_get 7 plain_parser) = Err RuntimeError_Unimplemented
  /\ fst (example_get 8 plain_parser) = Err OutOfRange_SegmentNotFound.
Proof. vm_compute. done. Qed.

(** ** [pup_decrypt] works in place *)

Section DecryptInPlace.
Context `{BlockCipher}.

Lemma xor_tail_length (r : nat) : forall (i base : nat) cells (buffer out : Buffer),
  xor_tail r i base cells buffer = Ok out -> length out = length buffer.
Proof.
  induction r as [|r IH]; intros i base cells buffer out; cbn [xor_tail].
  - by intros [= <-].
  - destruct (buffer !! (base + i)%nat) as [b|]; [|discriminate].
    destruct (mjoin (cells !! i)) as [k|]; [|discriminate].
    intros Hrun. apply IH in Hrun. by rewrite length_insert in Hrun.
Qed.

(** [pup_decrypt] on a buffer of at least one block whose length is not a
    multiple of 16, down to the XOR loop, whatever the lengths of the key
    and the IV. *)
Lemma pup_decrypt_tail_loop (buffer : Buffer) (meta : PupSegmentMeta) :
  (length buffer mod 16 <> 0)%nat -> (16 <= length buffer)%nat ->
  exists ks decrypted,
    length ks = 16%nat /\ length decrypted = length buffer
    /\ pup_decrypt buffer meta =
         xor_tail (length buffer mod 16) 0 (length buffer - length buffer mod 16)
           (Some <$> ks) decrypted.
Proof.
  intros Hov Hlen. unfold pup_decrypt.
  set (n := length buffer) in *. set (r := (n mod 16)%nat) in *.
  set (m := (n - r)%nat).
  assert (Hdm : n = (16 * (n / 16) + r)%nat) by apply Nat.div_mod_eq.
  assert (Hr : (r < 16)%nat) by (apply Nat.mod_upper_bound; lia).
  assert (Hq : (1 <= n / 16)%nat) by (apply Nat.div_le_lower_bound; lia).
  assert (Hm : (16 <= m)%nat) by lia.
  rewrite land_0xF, land_lnot_0xF, aligned_size_nat, overflow_size_nat.
  fold r. fold m.
  replace (Z.of_nat r =? 0) with false by (symmetry; apply Z.eqb_neq; lia).
  replace (16 <=? Z.of_nat m) with true by (symmetry; apply Z.leb_le; lia).
  cbn [negb andb].
  replace (Z.of_nat m - 16) with (Z.of_nat (m - 16)) by lia.
  rewrite (slice_nat (m - 16) 16), slice_0, !Nat2Z.id.
  set (captured := take 16 (drop (m - 16) buffer)).
  assert (Hcap : length captured = 16%nat).
  { subst captured. rewrite length_take, length_drop. fold n. lia. }
  rewrite store16_full by lia.
  unfold load16. rewrite mapM_id_Some.
  rewrite store16_full by apply length_cbc_encrypt_ge.
  eexists. eexists. split; [|split; [|reflexivity]].
  - rewrite length_take.
    pose proof (length_cbc_encrypt_ge (take 16 (data_key meta)) (take 16 captured)).
    lia.
  - apply length_overwrite_prefix.
Qed.

(** X6.  [pup_decrypt] works in place: on every buffer of at least 16
    bytes it returns, and the buffer it returns has the length of the
    buffer it was given. *)
Theorem pup_decrypt_keeps_length (buffer : Buffer) (meta : PupSegmentMeta) :
  (16 <= length buffer)%nat ->
  exists out, pup_decrypt buffer meta = Ok out /\ length out = length buffer.
Proof.
  intros Hlong.
  destruct (decide (length buffer mod 16 = 0)%nat) as [Hal|Hov].
  - unfold pup_decrypt.
    rewrite land_0xF, overflow_size_nat, Hal. cbn [Z.of_nat Z.eqb negb andb].
    eexists. split; [reflexivity|]. apply length_overwrite_prefix.
  - destruct (pup_decrypt_tail_loop buffer meta Hov Hlong)
      as (ks & decrypted & Hks & Hdec & ->).
    pose proof (Nat.mod_upper_bound (length buffer) 16).
    pose proof (Nat.div_mod_eq (length buffer) 16).
    rewrite xor_tail_closed by lia.
    eexists. split; [reflexivity|].
    unfold xor_bytes.
    rewrite !length_app, length_zip_with, !length_take, !length_drop. lia.
Qed.

End DecryptInPlace.

Lemma pup_decrypt_keeps_length_witness :
  exists out, @pup_decrypt shift_cipher example_ciphertext example_meta = Ok out
              /\ length out = length example_ciphertext.
Proof.
  apply (@pup_decrypt_keeps_length shift_cipher example_ciphertext example_meta).
  vm_compute. lia.
Defined.

(** ** More of the constructor *)

Section ConstructionMore.
Context `{Layout, BlockCipher, CryptoVault, Zlib}.

(** The constructor body from the reinterpretation of the decrypted header
    extension block on. *)
Definition tables_from (hd : PupHeader) (ext : Buffer) : M PupParser unit :=
  raw <- lift (reinterpret_at 0 sizeof_PupHeaderEx ext) ;;
  set_headerEx (as_PupHeaderEx raw) ;;;
  set_segEntries [] ;;;
  hx <- member headerEx ;;
  push_entries (Z.to_nat (segment_count hx)) 0 ext ;;;
  buffer <- on_stream (Stream_read (meta_size hd)) ;;
  buffer <- lift (vault_decrypt (vault_get "pup.root_key") buffer) ;;
  set_segMetas [] ;;;
  hx <- member headerEx ;;
  push_metas (Z.to_nat (segment_count hx)) 0 buffer.

(** The bytes of the header extension block and of the meta block. *)
Definition ext_block (st : Stream) (hd : PupHeader) : Buffer :=
  slice sizeof_PupHeader (wrap64 (hdr_size hd - sizeof_PupHeader)) (contents st).

Definition meta_block (st : Stream) (hd : PupHeader) : Buffer :=
  slice (sizeof_PupHeader + wrap64 (hdr_size hd - sizeof_PupHeader))
    (meta_size hd) (contents st).

Lemma Stream_read_serves (n : Z) (st : Stream) :
  stream_serves (contents st) (position st) n = true ->
  Stream_read n st = (Ok (slice (position st) n (contents st)),
                      mkStream (contents st) (position st + n)).
Proof. unfold Stream_read, stream_serves. by intros ->. Qed.

(** A valid header and a header extension block that is there and
    decrypts: the constructor arrives at the reinterpretation of the
    block. *)
Lemma read_tables_to_ext (st : Stream) (hd : PupHeader) (ext : Buffer) :
  header_read st = Ok hd -> fields_valid hd = true -> Z.land (flags hd) JIG = 0 ->
  stream_serves (contents st) sizeof_PupHeader
    (wrap64 (hdr_size hd - sizeof_PupHeader)) = true ->
  vault_decrypt (vault_get "pup.hdr") (ext_block st hd) = Ok ext ->
  read_tables (unconstructed st) =
    tables_from hd ext
      (mkPupParser
         (mkStream (contents st)
            (sizeof_PupHeader + wrap64 (hdr_size hd - sizeof_PupHeader)))
         hd (mkPupHeaderEx 0) [] []).
Proof.
  intros (raw & Hread & ->)%header_read_Ok Hvalid Hjig Hserve Hext.
  apply fields_valid_true in Hvalid as (Hmagic & Hversion & Hmode & Hendian & Hattr).
  unfold read_tables.
  erewrite bind_Ok_eq by reflexivity.
  erewrite bind_Ok_eq
    by (unfold on_stream; cbn [s unconstructed]; rewrite Hread; reflexivity).
  erewrite bind_Ok_eq by reflexivity.
  erewrite bind_Ok_eq by reflexivity.
  cbn [header headerEx segEntries segMetas s].
  rewrite Hmagic, Hversion, Hmode, Hendian, Hattr, Hjig, !Z.eqb_refl.
  do 6 (erewrite bind_Ok_eq by reflexivity).
  erewrite bind_Ok_eq.
  2:{ unfold on_stream. cbn [s]. rewrite Stream_read_serves by exact Hserve.
      reflexivity. }
  cbn [contents position header headerEx segEntries segMetas].
  rewrite !Z.add_0_l.
  fold (ext_block st (as_PupHeader raw)).
  erewrite bind_Ok_eq by (unfold lift; rewrite Hext; reflexivity).
  reflexivity.
Qed.

Lemma reinterpret_at_fits (off size : Z) (buffer : Buffer) :
  0 <= off -> 0 <= size -> off + size <= Z.of_nat (length buffer) ->
  reinterpret_at off size buffer = Ok (slice off size buffer).
Proof.
  intros Hoff Hsize Hfit. unfold reinterpret_at.
  by replace (_ && _) with true by (symmetry; rewrite !andb_true_iff, !Z.leb_le; lia).
Qed.

Lemma reinterpret_at_past (off size : Z) (buffer : Buffer) :
  Z.of_nat (length buffer) < off + size ->
  reinterpret_at off size buffer = Err (Undefined OutOfBoundsRead).
Proof.
  intros Hpast. unfold reinterpret_at.
  replace (off + size <=? _) with false by (symmetry; apply Z.leb_gt; lia).
  by rewrite andb_false_r.
Qed.

(** All [n] rows from [i] on lie inside the buffer: the loop pushes them. *)
Lemma push_entries_fits (n : nat) : forall (i : Z) (buffer : Buffer) (p : PupParser),
  0 <= i -> 0 <= sizeof_PupHeaderEx -> 0 <= sizeof_PupSegmentEntry ->
  sizeof_PupHeaderEx + (i + Z.of_nat n) * sizeof_PupSegmentEntry
    <= Z.of_nat (length buffer) ->
  push_entries n i buffer p =
    (Ok tt, mkPupParser (s p) (header p) (headerEx p)
              (segEntries p
                 ++ map (fun k => entry_at buffer (i + Z.of_nat k)) (seq 0 n))
              (segMetas p)).
Proof.
  induction n as [|n IH]; intros i buffer p Hi Hx He Hfit.
  - cbn. rewrite app_nil_r. by destruct p.
  - cbn [push_entries].
    erewrite bind_Ok_eq.
    2:{ unfold lift. rewrite reinterpret_at_fits by nia. reflexivity. }
    erewrite bind_Ok_eq by reflexivity.
    erewrite bind_Ok_eq by reflexivity.
    rewrite IH by (try lia; nia).
    cbn [s header headerEx segEntries segMetas].
    do 2 f_equal. rewrite <- app_assoc. f_equal. cbn [seq map app]. f_equal.
    + unfold entry_at. by rewrite Z.add_0_r.
    + rewrite <- seq_shift, map_map. apply map_ext. intros k. f_equal. lia.
Qed.

Lemma push_metas_fits (n : nat) : forall (i : Z) (buffer : Buffer) (p : PupParser),
  0 <= i -> 0 <= sizeof_PupSegmentMeta ->
  (i + Z.of_nat n) * sizeof_PupSegmentMeta <= Z.of_nat (length buffer) ->
  push_metas n i buffer p =
    (Ok tt, mkPupParser (s p) (header p) (headerEx p) (segEntries p)
              (segMetas p
                 ++ map (fun k => meta_at buffer (i + Z.of_nat k)) (seq 0 n))).
Proof.
  induction n as [|n IH]; intros i buffer p Hi Hm Hfit.
  - cbn. rewrite app_nil_r. by destruct p.
  - cbn [push_metas].
    erewrite bind_Ok_eq.
    2:{ unfold lift. rewrite reinterpret_at_fits by nia. reflexivity. }
    erewrite bind_Ok_eq by reflexivity.
    erewrite bind_Ok_eq by reflexivity.
    rewrite IH by (try lia; nia).
    cbn [s header headerEx segEntries segMetas].
    do 2 f_equal. rewrite <- app_assoc. f_equal. cbn [seq map app]. f_equal.
    + unfold meta_at. by rewrite Z.add_0_r.
    + rewrite <- seq_shift, map_map. apply map_ext. intros k. f_equal. lia.
Qed.

(** Rows up to [i] lie inside the buffer and row [i + n - 1] does not: the
    loop reads past the buffer. *)
Lemma push_entries_past (n : nat) : forall (i : Z) (buffer : Buffer) (p : PupParser),
  0 <= i -> 0 <= sizeof_PupHeaderEx -> 0 < sizeof_PupSegmentEntry ->
  sizeof_PupHeaderEx + i * sizeof_PupSegmentEntry <= Z.of_nat (length buffer) ->
  Z.of_nat (length buffer)
    < sizeof_PupHeaderEx + (i + Z.of_nat n) * sizeof_PupSegmentEntry ->
  exists p', push_entries n i buffer p = (Err (Undefined OutOfBoundsRead), p').
Proof.
  induction n as [|n IH]; intros i buffer p Hi Hx He Hin Hpast.
  - lia.
  - cbn [push_entries].
    destruct (Z.le_gt_cases
                (sizeof_PupHeaderEx + (i + 1) * sizeof_PupSegmentEntry)
                (Z.of_nat (length buffer))) as [Hfit|Hout].
    + erewrite bind_Ok_eq.
      2:{ unfold lift. rewrite reinterpret_at_fits by nia. reflexivity. }
      erewrite bind_Ok_eq by reflexivity.
      erewrite bind_Ok_eq by reflexivity.
      apply IH; solve [lia | nia].
    + eexists. erewrite bind_Err_eq; [reflexivity|].
      unfold lift. rewrite reinterpret_at_past by nia. reflexivity.
Qed.

(** X7.  A parser that the constructor returned was built with [verify]
    off and holds a header that passed every check: the magic, version 0,
    mode 1, little endian, attr 0x12 and no JIG flag.  It is the header read
    at offset 0 of the stream, whose bytes the constructor left as they
    were and whose position it left just behind the meta block. *)
Theorem constructed_header_valid (st : Stream) (verify : bool) (p : PupParser) :
  new_PupParser st verify = Ok p ->
  verify = false
  /\ header_read st = Ok (header p)
  /\ magic (header p) = PUP_MAGIC /\ version (header p) = 0
  /\ mode (header p) = 1 /\ endian (header p) = LITTLE
  /\ attr (header p) = 0x12 /\ Z.land (flags (header p)) JIG = 0
  /\ contents (s p) = contents st
  /\ position (s p) =
       sizeof_PupHeader + wrap64 (hdr_size (header p) - sizeof_PupHeader)
       + meta_size (header p).
Proof.
  intros [-> Hrun]%ctor_Ok. split; [done|].
  apply read_tables_Ok in Hrun
    as (hd & ext & metab & Hread & Hvalid & Hjig & _ & _ & ->).
  simpl_obj.
  apply fields_valid_true in Hvalid as (? & ? & ? & ? & ?).
  by repeat split.
Qed.

(** X8.  The constructor returns on every well-formed archive: when the
    header at offset 0 passes the checks, the header extension block and the
    meta block are in the stream and decrypt, and the [segment_count] rows
    of either table lie inside its decrypted block, construction without
    [verify] returns the parser holding that header, the header extension
    and the rows of both tables in order. *)
Theorem well_formed_archive_constructs (st : Stream) (hd : PupHeader)
    (ext metab : Buffer) :
  header_read st = Ok hd -> fields_valid hd = true -> Z.land (flags hd) JIG = 0 ->
  stream_serves (contents st) sizeof_PupHeader
    (wrap64 (hdr_size hd - sizeof_PupHeader)) = true ->
  vault_decrypt (vault_get "pup.hdr") (ext_block st hd) = Ok ext ->
  stream_serves (contents st)
    (sizeof_PupHeader + wrap64 (hdr_size hd - sizeof_PupHeader))
    (meta_size hd) = true ->
  vault_decrypt (vault_get "pup.root_key") (meta_block st hd) = Ok metab ->
  0 <= sizeof_PupHeaderEx -> 0 <= sizeof_PupSegmentEntry ->
  0 <= sizeof_PupSegmentMeta ->
  let hx := as_PupHeaderEx (slice 0 sizeof_PupHeaderEx ext) in
  sizeof_PupHeaderEx + segment_count hx * sizeof_PupSegmentEntry
    <= Z.of_nat (length ext) ->
  segment_count hx * sizeof_PupSegmentMeta <= Z.of_nat (length metab) ->
  new_PupParser st false =
    Ok (mkPupParser
          (mkStream (contents st)
             (sizeof_PupHeader + wrap64 (hdr_size hd - sizeof_PupHeader)
              + meta_size hd))
          hd hx
          (map (fun k => entry_at ext (Z.of_nat k))
             (seq 0 (Z.to_nat (segment_count hx))))
          (map (fun k => meta_at metab (Z.of_nat k))
             (seq 0 (Z.to_nat (segment_count hx))))).
Proof.
  intros Hread Hvalid Hjig Hserve Hext Hserve2 Hmeta Hx He Hm hx Hrows Hmrows.
  pose proof (segment_count_unsigned (slice 0 sizeof_PupHeaderEx ext)) as Hn.
  fold hx in Hn.
  unfold new_PupParser, PupParser_ctor.
  erewrite bind_Ok_eq; [reflexivity|].
  rewrite (read_tables_to_ext st hd ext) by done.
  unfold tables_from.
  erewrite bind_Ok_eq.
  2:{ unfold lift. rewrite reinterpret_at_fits by nia. reflexivity. }
  erewrite bind_Ok_eq by reflexivity.
  erewrite bind_Ok_eq by reflexivity.
  erewrite bind_Ok_eq by reflexivity.
  cbn [headerEx]. fold hx.
  erewrite bind_Ok_eq.
  2:{ apply push_entries_fits; lia. }
  cbn [s header headerEx segEntries segMetas app].
  erewrite bind_Ok_eq.
  2:{ unfold on_stream. cbn [s]. rewrite Stream_read_serves by exact Hserve2.
      reflexivity. }
  cbn [contents position]. fold (meta_block st hd).
  erewrite bind_Ok_eq by (unfold lift; rewrite Hmeta; reflexivity).
  erewrite bind_Ok_eq by reflexivity.
  erewrite bind_Ok_eq by reflexivity.
  cbn [s header headerEx segEntries segMetas].
  rewrite push_metas_fits by lia.
  cbn [s header headerEx segEntries segMetas app].
  reflexivity.
Qed.

(** X9.  The constructor trusts [segment_count]: when the header checks
    pass and the header extension block decrypts, but the block is too
    short for the header extension and the [segment_count] entry rows it
    announces, the constructor reads past the end of the decrypted buffer,
    with or without [verify]. *)
Theorem oversized_segment_count_reads_past_block (st : Stream) (verify : bool)
    (hd : PupHeader) (ext : Buffer) :
  header_read st = Ok hd -> fields_valid hd = true -> Z.land (flags hd) JIG = 0 ->
  stream_serves (contents st) sizeof_PupHeader
    (wrap64 (hdr_size hd - sizeof_PupHeader)) = true ->
  vault_decrypt (vault_get "pup.hdr") (ext_block st hd) = Ok ext ->
  0 <= sizeof_PupHeaderEx -> 0 < sizeof_PupSegmentEntry ->
  Z.of_nat (length ext)
    < sizeof_PupHeaderEx
      + segment_count (as_PupHeaderEx (slice 0 sizeof_PupHeaderEx ext))
        * sizeof_PupSegmentEntry ->
  new_PupParser st verify = Err (Undefined OutOfBoundsRead).
Proof.
  intros Hread Hvalid Hjig Hserve Hext Hx He Hshort.
  set (hx := as_PupHeaderEx (slice 0 sizeof_PupHeaderEx ext)) in *.
  pose proof (segment_count_unsigned (slice 0 sizeof_PupHeaderEx ext)) as Hn.
  fold hx in Hn.
  assert (Hrun : exists p',
    read_tables (unconstructed st) = (Err (Undefined OutOfBoundsRead), p')).
  { rewrite (read_tables_to_ext st hd ext) by done. unfold tables_from.
    destruct (Z.le_gt_cases sizeof_PupHeaderEx (Z.of_nat (length ext)))
      as [Hfit|Hout].
    - erewrite bind_Ok_eq.
      2:{ unfold lift. rewrite reinterpret_at_fits by lia. reflexivity. }
      erewrite bind_Ok_eq by reflexivity.
      erewrite bind_Ok_eq by reflexivity.
      erewrite bind_Ok_eq by reflexivity.
      cbn [headerEx]. fold hx.
      edestruct (push_entries_past (Z.to_nat (segment_count hx)) 0 ext)
        as [p' Hpast]; [| | | |rewrite Z2Nat.id by lia; lia|]; try lia.
      eexists. erewrite bind_Err_eq; [reflexivity|exact Hpast].
    - eexists. erewrite bind_Err_eq; [reflexivity|].
      unfold lift. rewrite reinterpret_at_past by lia. reflexivity. }
  destruct Hrun as [p' Hrun].
  unfold new_PupParser, PupParser_ctor. by erewrite bind_Err_eq.
Qed.

End ConstructionMore.

Lemma constructed_header_valid_witness :
  false = false
  /\ @header_read small_layout (mkStream two_info_archive 0)
     = Ok (header two_info_parser)
  /\ magic (header two_info_parser) = PUP_MAGIC
  /\ version (header two_info_parser) = 0
  /\ mode (header two_info_parser) = 1 /\ endian (header two_info_parser) = LITTLE
  /\ attr (header two_info_parser) = 0x12
  /\ Z.land (flags (header two_info_parser)) JIG = 0
  /\ contents (s two_info_parser) = two_info_archive
  /\ position (s two_info_parser) =
       @sizeof_PupHeader small_layout
       + wrap64 (hdr_size (header two_info_parser) - @sizeof_PupHeader small_layout)
       + meta_size (header two_info_parser).
Proof.
  apply (@constructed_header_valid small_layout example_vault
           (mkStream two_info_archive 0) false two_info_parser).
  vm_compute. reflexivity.
Defined.

Lemma well_formed_archive_constructs_witness :
  example_new two_info_archive false = Ok two_info_parser.
Proof.
  apply (@well_formed_archive_constructs small_layout example_vault
           (mkStream two_info_archive 0) (header two_info_parser)
           (@ext_block small_layout (mkStream two_info_archive 0)
              (header two_info_parser))
           (@meta_block small_layout (mkStream two_info_archive 0)
              (header two_info_parser)));
    try reflexivity; try (apply Z.leb_le; reflexivity).
Defined.

(** Two rows are stored and five announced. *)
Definition oversized_count_archive : Buffer :=
  archive_header 0x4F 0 2 ++ [5]
    ++ entry_row 0 F_BLOCKS 93 0 16 0 ++ entry_row 0 (F_INFO + F_EXTENTS) 93 0 0 0
    ++ meta_row 0 ++ meta_row 32.

Lemma oversized_segment_count_reads_past_block_witness :
  example_new oversized_count_archive true = Err (Undefined OutOfBoundsRead).
Proof.
  apply (@oversized_segment_count_reads_past_block small_layout example_vault
           (mkStream oversized_count_archive 0) true
           (@as_PupHeader small_layout (take 12 oversized_count_archive))
           (@ext_block small_layout (mkStream oversized_count_archive 0)
              (@as_PupHeader small_layout (take 12 oversized_count_archive))));
    try reflexivity.
  apply Z.leb_le. reflexivity.
Defined.

(** ** More of the blocked path *)

Section BlockedMore.
Context `{Layout, BlockCipher, CryptoVault, Zlib}.

Lemma emit_block_length entry block cur_zsize cur_size added :
  emit_block entry block cur_zsize cur_size = Ok added ->
  Z.of_nat (length added) = Z.max 0 cur_size.
Proof.
  unfold emit_block. destruct (is_compressed entry).
  - destruct (_ <=? _); [|discriminate].
    destruct (uncompress _ _) as [status written]. intros [= <-].
    rewrite length_overwrite_prefix, length_replicate. lia.
  - destruct (_ <=? _); [|discriminate]. intros [= <-].
    rewrite length_overwrite_prefix, length_replicate. lia.
Qed.

(** The loop adds [min(block_size, left_size)] bytes per extent until the
    file size is used up. *)
Lemma process_extents_length extents : forall entry meta left_size segment
    (p p' : PupParser) out,
  0 <= block_size entry -> 0 <= left_size ->
  process_extents extents entry meta left_size segment p = (Ok out, p') ->
  Z.of_nat (length out) =
    Z.of_nat (length segment)
    + Z.min left_size (Z.of_nat (length extents) * block_size entry).
Proof.
  induction extents as [|extent rest IH];
    intros entry meta left_size segment p p' out Hbs Hleft Hrun.
  - injection Hrun as <- _. cbn [length]. lia.
  - cbn [process_extents] in Hrun. step_in Hrun as r. destruct r as [added left'].
    apply process_block_Ok in Hm as (block & _ & Hemit & -> & _ & _).
    apply emit_block_length in Hemit.
    cbn [fst snd] in Hrun. apply IH in Hrun; [|done|lia].
    rewrite Hrun, length_app. cbn [length]. nia.
Qed.

Lemma Stream_read_n_length {T : Type} (n : nat) : forall (size : Z)
    (as_T : Buffer -> T) (st st' : Stream) (l : list T),
  Stream_read_n n size as_T st = (Ok l, st') -> length l = n.
Proof.
  induction n as [|n IH]; intros size as_T st st' l Hrun.
  - by injection Hrun as <- _.
  - cbn [Stream_read_n] in Hrun.
    apply bind_Ok in Hrun as (b & st1 & _ & Hrun).
    apply bind_Ok in Hrun as (rest & st2 & Hrest & Hrun).
    injection Hrun as <- _. cbn [length]. f_equal. by eapply IH.
Qed.

Lemma read_info_steps info_entry block_count (st : Stream) tables :
  fst (read_info info_entry block_count st) = Ok tables ->
  exists digests st1 st2,
    (if has_extents info_entry
     then Stream_read_n (Z.to_nat block_count) sizeof_PupExtent as_PupExtent
     else ret []) st1 = (Ok (snd tables), st2)
    /\ fst tables = digests.
Proof.
  unfold read_info. intros Hrun.
  destruct (bind _ _ st) as [r st2] eqn:Hb. cbn [fst] in Hrun. subst r.
  apply bind_Ok in Hb as (digests & st1 & _ & Hb).
  apply bind_Ok in Hb as (extents & st3 & Hx & Hb).
  injection Hb as <- <-. by exists digests, st1, st3.
Qed.

Lemma read_info_extent_count info_entry block_count (st : Stream) tables :
  fst (read_info info_entry block_count st) = Ok tables ->
  length (snd tables) =
    if has_extents info_entry then Z.to_nat block_count else 0%nat.
Proof.
  unfold read_info. intros Hrun.
  destruct (read_info_steps info_entry block_count st tables Hrun)
    as (digests & st1 & st2 & Hx & _). clear Hrun.
  destruct (has_extents info_entry).
  - by apply Stream_read_n_length in Hx.
  - by injection Hx as <- _.
Qed.

(** X10.  A blocked extraction that returns has produced
    [min(file_size, n * block_size)] bytes, [n] being the number of extents:
    [block_count] when the info segment has the has-extents flag and none
    otherwise.  So the output is never longer than the entry's file size,
    it is shorter when the blocks do not cover it, and it is empty when the
    info segment lists no extents. *)
Theorem get_blocked_output_length (index : Z) (p p' : PupParser) (out : Buffer) :
  get_blocked index p = (Ok out, p') ->
  exists entry info_index info_entry,
    at_index (segEntries p) index = Ok entry
    /\ find_info index p = Ok info_index
    /\ at_index (segEntries p) info_index = Ok info_entry
    /\ (0 <= block_size entry -> 0 <= file_size entry ->
        Z.of_nat (length out) =
          Z.min (file_size entry)
            ((if has_extents info_entry then Z.max 0 (block_count entry) else 0)
             * block_size entry)).
Proof.
  intros Hrun.
  apply get_blocked_Ok in Hrun
    as (entry & meta & info_index & info_entry & info_meta & info_buffer
        & tables & p1 & Hentry & _ & Hinfo & Hie & _ & _ & _ & Htables & _ & Hrun).
  exists entry, info_index, info_entry. repeat (split; [done|]).
  intros Hbs Hfs.
  apply process_extents_length in Hrun; [|done|done].
  apply read_info_extent_count in Htables.
  rewrite Hrun, Htables. cbn [length].
  destruct (has_extents info_entry); [|done].
  by replace (Z.of_nat (Z.to_nat (block_count entry)))
    with (Z.max 0 (block_count entry)) by lia.
Qed.

(** [n] records of [size] bytes from [pos] on lie inside the buffer: they
    are read in order. *)
Lemma Stream_read_n_fits {T : Type} (n : nat) : forall (size : Z)
    (as_T : Buffer -> T) (b : Buffer) (pos : Z),
  0 <= pos -> 0 <= size -> pos + Z.of_nat n * size <= Z.of_nat (length b) ->
  Stream_read_n n size as_T (mkStream b pos) =
    (Ok (map (fun k => as_T (slice (pos + Z.of_nat k * size) size b)) (seq 0 n)),
     mkStream b (pos + Z.of_nat n * size)).
Proof.
  induction n as [|n IH]; intros size as_T b pos Hpos Hsize Hfit.
  - cbn. by rewrite Z.add_0_r.
  - cbn [Stream_read_n].
    erewrite bind_Ok_eq.
    2:{ apply Stream_read_serves. unfold stream_serves. cbn [contents position].
        rewrite !andb_true_iff, !Z.leb_le. nia. }
    cbn [contents position].
    erewrite bind_Ok_eq by (apply IH; nia).
    unfold ret. f_equal.
    + f_equal. cbn [seq map]. f_equal.
      * by rewrite Z.add_0_r.
      * rewrite <- seq_shift, map_map. apply map_ext. intros k. do 2 f_equal. lia.
    + f_equal. lia.
Qed.

(** X11.  The information segment is laid out as the digests followed by
    the extents, each table present only under its flag: with [n =
    block_count] records per table that lie inside the segment's bytes,
    digest [k] is read at byte [k * sizeof(PupDigest)], and extent [k] at
    byte [d + k * sizeof(PupExtent)], where [d] is the size of the digest
    table when the info segment has the has-digests flag and 0 when it has
    not. *)
Theorem read_info_layout info_entry (block_count : Z) (buffer : Buffer) :
  0 <= sizeof_PupDigest -> 0 <= sizeof_PupExtent ->
  let n := Z.to_nat block_count in
  let d := if has_digests info_entry then Z.of_nat n * sizeof_PupDigest else 0 in
  let x := if has_extents info_entry then Z.of_nat n * sizeof_PupExtent else 0 in
  d + x <= Z.of_nat (length buffer) ->
  fst (read_info info_entry block_count (mkStream buffer 0)) =
    Ok (if has_digests info_entry
        then map (fun k => as_PupDigest
                    (slice (Z.of_nat k * sizeof_PupDigest) sizeof_PupDigest buffer))
               (seq 0 n)
        else [],
        if has_extents info_entry
        then map (fun k => as_PupExtent
                    (slice (d + Z.of_nat k * sizeof_PupExtent) sizeof_PupExtent
                       buffer))
               (seq 0 n)
        else []).
Proof.
  intros Hd Hx n d x Hfit. unfold read_info. fold n.
  assert (Hxn : 0 <= x) by (subst x; destruct (has_extents info_entry); nia).
  assert (Hdn : 0 <= d) by (subst d; destruct (has_digests info_entry); nia).
  destruct (has_digests info_entry).
  - erewrite bind_Ok_eq by (apply Stream_read_n_fits; lia).
    rewrite Z.add_0_l. fold d. destruct (has_extents info_entry).
    + erewrite bind_Ok_eq by (apply Stream_read_n_fits; lia). done.
    + done.
  - erewrite bind_Ok_eq by reflexivity.
    destruct (has_extents info_entry).
    + erewrite bind_Ok_eq by (apply Stream_read_n_fits; lia). done.
    + done.
Qed.


Lemma length_raw_block (bytes : Buffer) entry extent :
  stream_serves bytes (wrap64 (offset entry + ext_offset extent))
    (ext_size extent) = true ->
  Z.of_nat (length (raw_block bytes entry extent)) = ext_size extent.
Proof.
  unfold stream_serves, raw_block, slice.
  rewrite !andb_true_iff, !Z.leb_le. intros [[Hoff Hn] Hfit].
  rewrite length_take, length_drop. lia.
Qed.

Lemma length_decrypted_block entry meta (raw block : Buffer) :
  decrypted_block entry meta raw = Ok block -> length block = length raw.
Proof.
  unfold decrypted_block. destruct (is_encrypted entry).
  - apply vault_decrypt_length.
  - by intros [= <-].
Qed.

(** X13.  The compressed length handed to [uncompress],
    [cur_zsize = (size & ~0xF) - (size & 0xF)] in the unsigned arithmetic of
    the extent's size, stays within the [size] bytes read for the block
    exactly when the size is 0 or at least 16.  From 16 on it is the size
    less twice its low four bits; for a size from 1 to 15 it wraps to
    [2^w - size], more than the block holds.  (The width [w] of the size's
    type is taken to be at least 5 bits.) *)
Theorem compressed_length_within_block (extent : PupExtent) :
  5 <= extent_bits -> 0 <= ext_size extent < 2 ^ extent_bits ->
  (cur_zsize_of extent <= ext_size extent
   <-> ext_size extent = 0 \/ 16 <= ext_size extent)
  /\ (16 <= ext_size extent ->
      cur_zsize_of extent = ext_size extent - 2 * (ext_size extent mod 16))
  /\ (0 < ext_size extent < 16 ->
      cur_zsize_of extent = 2 ^ extent_bits - ext_size extent).
Proof.
  intros Hbits Hrange.
  assert (Hpow : 32 <= 2 ^ extent_bits).
  { change 32 with (2 ^ 5). apply Z.pow_le_mono_r; lia. }
  assert (Hshort : 0 < ext_size extent < 16 ->
    cur_zsize_of extent = 2 ^ extent_bits - ext_size extent).
  { intros Hsize. unfold cur_zsize_of. rewrite land_0xF, land_lnot_0xF.
    rewrite Z.div_small, (Z.mod_small (ext_size extent) 16) by lia.
    rewrite Z.mul_0_r, Z.sub_0_l.
    rewrite <- (Z.mod_add _ 1) by lia. rewrite Z.mod_small; lia. }
  assert (Hlong : 16 <= ext_size extent ->
    cur_zsize_of extent = ext_size extent - 2 * (ext_size extent mod 16)).
  { intros Hsize. apply cur_zsize_of_no_wrap. lia. }
  split; [|by split].
  pose proof (Z.mod_pos_bound (ext_size extent) 16).
  split.
  - intros Hle.
    destruct (Z.eq_dec (ext_size extent) 0) as [Hz|Hnz]; [by left|].
    destruct (Z.lt_ge_cases (ext_size extent) 16) as [Hlt|Hge]; [|by right].
    rewrite Hshort in Hle; lia.
  - intros [Hz|Hge].
    + unfold cur_zsize_of. rewrite Hz. cbn. rewrite Z.mod_0_l; lia.
    + rewrite Hlong; lia.
Qed.

End BlockedMore.

Lemma get_blocked_output_length_witness :
  exists entry info_index info_entry,
    at_index (segEntries two_info_parser) 0 = Ok entry
    /\ find_info 0 two_info_parser = Ok info_index
    /\ at_index (segEntries two_info_parser) info_index = Ok info_entry
    /\ (0 <= block_size entry -> 0 <= file_size entry ->
        Z.of_nat (length payload36) =
          Z.min (file_size entry)
            ((if has_extents info_entry then Z.max 0 (block_count entry) else 0)
             * block_size entry)).
Proof.
  apply (@get_blocked_output_length small_layout shift_cipher example_vault
           stored_zlib 0 two_info_parser
           (snd (example_get_blocked 0 two_info_parser)) payload36).
  vm_compute. reflexivity.
Defined.

Definition info_bytes : Buffer := map Z.of_nat (seq 0 9).

Definition info_with_digests : PupSegmentEntry :=
  mkPupSegmentEntry 0 true false false false false true true 0 9 0 0.

(** Three digests of one byte, then three extents of two bytes. *)
Lemma read_info_layout_witness :
  fst (@read_info small_layout info_with_digests 3 (mkStream info_bytes 0)) =
    Ok ([mkPupDigest [0]; mkPupDigest [1]; mkPupDigest [2]],
        [mkPupExtent 3 4; mkPupExtent 5 6; mkPupExtent 7 8]).
Proof.
  apply (@read_info_layout small_layout info_with_digests 3 info_bytes).
  - apply Z.leb_le. reflexivity.
  - apply Z.leb_le. reflexivity.
  - apply Z.leb_le. reflexivity.
Defined.




(** An extent of 5 bytes, sizes of 32 bits. *)
Lemma compressed_length_within_block_witness :
  (@cur_zsize_of small_layout (mkPupExtent 0 5) <= 5 <-> 5 = 0 \/ 16 <= 5)
  /\ (16 <= 5 -> @cur_zsize_of small_layout (mkPupExtent 0 5) = 5 - 2 * (5 mod 16))
  /\ (0 < 5 < 16 -> @cur_zsize_of small_layout (mkPupExtent 0 5) = 2 ^ 32 - 5).
Proof.
  apply (@compressed_length_within_block small_layout (mkPupExtent 0 5)).
  - vm_compute. discriminate.
  - vm_compute. split; [discriminate|reflexivity].
Defined.

(** ** [pup_decrypt] loses nothing *)

Section DecryptInjective.
Context `{BlockCipher}.

Lemma lxor_cancel_r (a b c : Z) : Z.lxor a c = Z.lxor b c -> a = b.
Proof.
  intros Heq. apply (f_equal (fun x => Z.lxor x c)) in Heq.
  by rewrite !Z.lxor_assoc, Z.lxor_nilpotent, !Z.lxor_0_r in Heq.
Qed.

Lemma xor_bytes_cancel (l1 : Buffer) : forall (l2 k : Buffer),
  length l1 = length l2 -> (length l1 <= length k)%nat ->
  xor_bytes l1 k = xor_bytes l2 k -> l1 = l2.
Proof.
  unfold xor_bytes.
  induction l1 as [|a l1 IH]; intros [|b l2] [|c k] Hlen Hk Heq;
    cbn in *; try done; try lia.
  injection Heq as Hab Hrest. apply lxor_cancel_r in Hab as ->.
  f_equal. apply (IH l2 k); [lia|lia|done].
Qed.

(** A block cipher whose decryption under [key] maps different blocks to
    different blocks. *)
Definition decrypt_injective (key : Buffer) : Prop :=
  forall c1 c2 : Buffer, length c1 = 16%nat -> length c2 = 16%nat ->
    aes_decrypt key c1 = aes_decrypt key c2 -> c1 = c2.

Lemma cbc_decrypt_blocks_inj (n : nat) : forall (key prev b1 b2 : Buffer),
  decrypt_injective key -> length prev = 16%nat ->
  length b1 = (16 * n)%nat -> length b2 = (16 * n)%nat ->
  cbc_decrypt_blocks n key prev b1 = cbc_decrypt_blocks n key prev b2 ->
  b1 = b2.
Proof.
  induction n as [|n IH]; intros key prev b1 b2 Hinj Hprev Hb1 Hb2 Heq.
  - destruct b1, b2; cbn in *; done || lia.
  - cbn [cbc_decrypt_blocks] in Heq.
    assert (Ht1 : length (take 16 b1) = 16%nat) by (rewrite length_take; lia).
    assert (Ht2 : length (take 16 b2) = 16%nat) by (rewrite length_take; lia).
    apply app_inj_1 in Heq as [Hhead Htail].
    2:{ unfold xor_bytes. by rewrite !length_zip_with, !aes_decrypt_length. }
    apply xor_bytes_cancel in Hhead;
      [|by rewrite !aes_decrypt_length|rewrite aes_decrypt_length; lia].
    apply Hinj in Hhead; [|done|done].
    rewrite <- Hhead in Htail.
    apply IH in Htail; [|done|done|rewrite length_drop; lia..].
    by rewrite <- (take_drop 16 b1), <- (take_drop 16 b2), Hhead, Htail.
Qed.

(** A buffer [pup_decrypt] returns on is empty or holds a block. *)
Lemma pup_decrypt_Ok_long (buffer out : Buffer) (meta : PupSegmentMeta) :
  pup_decrypt buffer meta = Ok out ->
  length buffer = 0%nat \/ (16 <= length buffer)%nat.
Proof.
  intros Hrun.
  destruct (decide (length buffer = 0)%nat) as [Hz|Hnz]; [by left|].
  destruct (decide (16 <= length buffer)%nat) as [Hlong|Hshort]; [by right|].
  exfalso. unfold pup_decrypt in Hrun.
  rewrite land_0xF, land_lnot_0xF in Hrun.
  rewrite Z.div_small, Z.mod_small in Hrun by lia.
  replace (Z.of_nat (length buffer) =? 0) with false in Hrun
    by (symmetry; apply Z.eqb_neq; lia).
  discriminate Hrun.
Qed.

Lemma pup_decrypt_Ok_length (buffer out : Buffer) (meta : PupSegmentMeta) :
  pup_decrypt buffer meta = Ok out -> length out = length buffer.
Proof.
  intros Hrun. pose proof (pup_decrypt_Ok_long _ _ _ Hrun) as Hlong.
  destruct (decide (length buffer mod 16 = 0)%nat) as [Hal|Hov].
  - unfold pup_decrypt in Hrun.
    rewrite land_0xF, overflow_size_nat, Hal in Hrun.
    cbn [Z.of_nat Z.eqb negb andb] in Hrun. injection Hrun as <-.
    apply length_overwrite_prefix.
  - assert (Hge : (16 <= length buffer)%nat).
    { destruct Hlong as [Hz|Hge]; [|done]. rewrite Hz in Hov. done. }
    destruct (pup_decrypt_tail_loop buffer meta Hov Hge)
      as (ks & decrypted & _ & Hdec & Heq).
    rewrite Heq in Hrun. apply xor_tail_length in Hrun. congruence.
Qed.

(** X14.  [pup_decrypt] loses nothing: under a 16-byte key and IV, and a
    cipher whose block decryption maps different blocks to different
    blocks, two different buffers that [pup_decrypt] returns on are turned
    into different plaintexts, be the difference in the aligned part or in
    the tail. *)
Theorem pup_decrypt_injective (b1 b2 out1 out2 : Buffer) (meta : PupSegmentMeta) :
  length (data_key meta) = 16%nat -> length (data_iv meta) = 16%nat ->
  decrypt_injective (data_key meta) ->
  b1 <> b2 ->
  pup_decrypt b1 meta = Ok out1 -> pup_decrypt b2 meta = Ok out2 ->
  out1 <> out2.
Proof.
  intros Hk Hiv Hinj Hne Hrun1 Hrun2 Hout. subst out2. rename out1 into out.
  apply Hne. clear Hne.
  pose proof (pup_decrypt_Ok_long _ _ _ Hrun1) as Hlong1.
  pose proof (pup_decrypt_Ok_length _ _ _ Hrun1) as Hl1.
  pose proof (pup_decrypt_Ok_length _ _ _ Hrun2) as Hl2.
  assert (Hlen : length b1 = length b2) by congruence.
  destruct (decide (length b1 mod 16 = 0)%nat) as [Hal|Hov].
  - rewrite pup_decrypt_aligned in Hrun1 by done.
    rewrite pup_decrypt_aligned in Hrun2 by (done || by rewrite <- Hlen).
    injection Hrun1 as <-. injection Hrun2 as Heq.
    unfold cbc_decrypt in Heq. rewrite <- Hlen in Heq.
    pose proof (Nat.div_mod_eq (length b1) 16).
    symmetry. eapply cbc_decrypt_blocks_inj; [done|done| | |exact Heq]; lia.
  - assert (Hlong : (16 <= length b1)%nat).
    { destruct Hlong1 as [Hz|Hlong]; [|done]. rewrite Hz in Hov. done. }
    rewrite pup_decrypt_unaligned in Hrun1 by done.
    rewrite pup_decrypt_unaligned in Hrun2 by (done || by rewrite <- Hlen).
    injection Hrun1 as <-. injection Hrun2 as Heq.
    unfold block_decryptor_spec in Heq. rewrite <- Hlen in Heq.
    set (r := (length b1 mod 16)%nat) in *.
    set (m := (length b1 - r)%nat) in *.
    replace (r =? 0)%nat with false in Heq by (symmetry; by apply Nat.eqb_neq).
    pose proof (Nat.div_mod_eq (length b1) 16) as Hdm. fold r in Hdm.
    assert (Hr : (r < 16)%nat) by (apply Nat.mod_upper_bound; lia).
    assert (Hq : (1 <= length b1 / 16)%nat) by (apply Nat.div_le_lower_bound; lia).
    assert (Hm16 : (m mod 16 = 0)%nat).
    { subst m. replace (length b1 - r)%nat with ((length b1 / 16) * 16)%nat by lia.
      apply Nat.Div0.mod_mul. }
    assert (Ht1 : length (take m b1) = m) by (rewrite length_take; lia).
    assert (Ht2 : length (take m b2) = m) by (rewrite length_take; lia).
    apply app_inj_1 in Heq as [Hprefix Htail].
    2:{ rewrite !length_cbc_decrypt; congruence. }
    assert (Hpre : take m b2 = take m b1).
    { unfold cbc_decrypt in Hprefix. rewrite Ht1, Ht2 in Hprefix.
      pose proof (Nat.div_mod_eq m 16).
      eapply cbc_decrypt_blocks_inj; [done|done| | |exact Hprefix]; lia. }
    assert (Hcap : take 16 (drop (m - 16) b2) = take 16 (drop (m - 16) b1)).
    { rewrite !take_drop_commute.
      replace (m - 16 + 16)%nat with m by lia. by rewrite Hpre. }
    rewrite Hcap in Htail.
    apply xor_bytes_cancel in Htail.
    + by rewrite <- (take_drop m b1), <- (take_drop m b2), Hpre, Htail.
    + rewrite !length_drop. lia.
    + rewrite length_drop, !length_take.
      pose proof (length_cbc_encrypt_ge (data_key meta)
                    (take 16 (drop (m - 16) b1))). lia.
Qed.

End DecryptInjective.

(** A block cipher in place of AES whose decryption is one-to-one on all
    blocks: every byte XORed with the key's byte. *)
Definition xor_block (k b : Buffer) : Buffer :=
  bytes16 (fun i => Z.lxor (nth i b 0) (nth i k 0)).

Definition xor_cipher : BlockCipher := {|
  aes_encrypt := xor_block;
  aes_decrypt := xor_block;
  default_iv := replicate 16 0;
  aes_encrypt_length := fun k b => length_bytes16 _;
  aes_decrypt_length := fun k b => length_bytes16 _;
  default_iv_length := eq_refl |}.

Lemma xor_cipher_injective (key : Buffer) : @decrypt_injective xor_cipher key.
Proof.
  intros c1 c2 Hl1 Hl2 Heq. cbn in Heq. unfold xor_block, bytes16 in Heq.
  apply (nth_ext c1 c2 0 0); [congruence|].
  intros i Hi. rewrite Hl1 in Hi.
  injection Heq; intros.
  do 16 (destruct i as [|i]; [eapply lxor_cancel_r; eassumption|]).
  lia.
Qed.

Definition other_ciphertext : Buffer := take 19 example_ciphertext ++ [0].

(** Two buffers that differ in their last tail byte. *)
Lemma pup_decrypt_injective_witness :
  [76; 77; 78; 71; 64; 65; 66; 75; 84; 85; 86; 79; 72; 73; 74; 83; 17; 18; 19; 20]
  <> [76; 77; 78; 71; 64; 65; 66; 75; 84; 85; 86; 79; 72; 73; 74; 83; 17; 18; 19; 47].
Proof.
  apply (@pup_decrypt_injective xor_cipher example_ciphertext other_ciphertext
           _ _ example_meta eq_refl eq_refl (xor_cipher_injective _)).
  - discriminate.
  - vm_compute. reflexivity.
  - vm_compute. reflexivity.
Defined.

(** ** Extraction of a plain segment returns *)

Section PlainExtraction.
Context `{Layout, BlockCipher, CryptoVault, Zlib}.

(** The blocks of a plain segment as they are laid out in the output: each
    followed by zeros up to its [cur_size]. *)
Definition padded_blocks (bytes : Buffer) (entry : PupSegmentEntry)
    (extents : list PupExtent) (left_size : Z) : Buffer :=
  concat (zip_with (fun extent cur =>
            raw_block bytes entry extent
              ++ replicate (Z.to_nat (cur - ext_size extent)) 0)
          extents (cur_sizes (block_size entry) left_size (length extents))).

(** Every extent lies inside the stream and inside the [cur_size] bytes the
    loop reserves for it. *)
Definition extents_fit (bytes : Buffer) (entry : PupSegmentEntry)
    (extents : list PupExtent) (left_size : Z) : Prop :=
  Forall (fun extent =>
    stream_serves bytes (wrap64 (offset entry + ext_offset extent))
      (ext_size extent) = true) extents
  /\ Forall2 (fun extent cur => ext_size extent <= cur) extents
       (cur_sizes (block_size entry) left_size (length extents)).

Lemma process_extents_plain extents : forall entry meta left_size segment
    (p : PupParser),
  is_encrypted entry = false -> is_compressed entry = false ->
  extents_fit (contents (s p)) entry extents left_size ->
  fst (process_extents extents entry meta left_size segment p) =
    Ok (segment ++ padded_blocks (contents (s p)) entry extents left_size).
Proof.
  induction extents as [|extent rest IH];
    intros entry meta left_size segment p Henc Hcomp [Hserved Hfits].
  - cbn. by rewrite app_nil_r.
  - cbn [process_extents]. unfold bind.
    destruct (process_block entry meta extent left_size p) as [r p1] eqn:Hpb.
    pose proof (process_block_fst entry meta extent left_size p) as Hfst.
    pose proof (frame_process_block entry meta extent left_size p) as Hframe.
    rewrite Hpb in Hfst, Hframe. cbn [fst snd] in Hfst, Hframe.
    destruct Hframe as (_ & _ & _ & _ & Hbytes).
    cbn [length cur_sizes] in Hfits.
    apply Forall_cons in Hserved as [Hs Hserved].
    apply Forall2_cons in Hfits as [Hf Hfits].
    pose proof (length_raw_block _ _ _ Hs) as Hlen.
    rewrite Hs in Hfst. unfold decrypted_block in Hfst. rewrite Henc in Hfst.
    rewrite emit_block_fits in Hfst by (done || lia). subst r. cbn [fst snd].
    rewrite IH; [|done|done|split; [by rewrite <- Hbytes|done]].
    rewrite <- Hbytes. unfold padded_blocks.
    cbn [length cur_sizes zip_with concat]. rewrite <- !app_assoc.
    by replace (Z.to_nat (Z.min (block_size entry) left_size)
                - length (raw_block (contents (s p)) entry extent))%nat
      with (Z.to_nat (Z.min (block_size entry) left_size - ext_size extent))
      by lia.
Qed.

(** X15.  [get(id)] returns on a plain blocked segment that is laid out
    consistently: when the id resolves to an entry with blocks that is
    neither encrypted nor compressed, its information segment (found from
    the entry's index) is neither encrypted nor compressed and lies inside
    the stream, its bytes hold the extent table, and every extent lies
    inside the stream and is no longer than the [cur_size] of its
    iteration, [get] returns the bytes of the blocks in order, each
    followed by zeros up to [cur_size], and leaves the parser's header,
    tables and stream bytes as they were. *)
Theorem plain_segment_extracted (id' index info_index : Z) (p : PupParser)
    (entry info_entry : PupSegmentEntry) (digests : list PupDigest)
    (extents : list PupExtent) :
  find_id id' p = Ok index ->
  at_index (segEntries p) index = Ok entry ->
  has_blocks entry = true ->
  is_encrypted entry = false -> is_compressed entry = false ->
  find_info index p = Ok info_index ->
  at_index (segEntries p) info_index = Ok info_entry ->
  is_encrypted info_entry = false -> is_compressed info_entry = false ->
  stream_serves (contents (s p)) (offset info_entry) (file_size info_entry)
    = true ->
  fst (read_info info_entry (block_count entry)
         (mkStream (slice (offset info_entry) (file_size info_entry)
                      (contents (s p))) 0)) = Ok (digests, extents) ->
  extents_fit (contents (s p)) entry extents (file_size entry) ->
  exists p',
    get id' p =
      (Ok (padded_blocks (contents (s p)) entry extents (file_size entry)), p')
    /\ same_archive p p'.
Proof.
  intros Hfind Hentry Hblocks Henc Hcomp Hinfo Hie Hienc Hicomp Hserved
    Htables Hfit.
  exists (snd (get id' p)). split; [|apply frame_get].
  rewrite (surjective_pairing (get id' p)) at 1. f_equal.
  assert (Hmeta : exists meta, at_index (segMetas p) index = Ok meta).
  { unfold find_id, find in Hfind. change 0 with (Z.of_nat 0) in Hfind.
    apply find_from_Ok in Hfind as (k & e & m & -> & _ & _ & Hm & _).
    exists m. by rewrite at_index_nat, Hm. }
  assert (Himeta : exists meta, at_index (segMetas p) info_index = Ok meta).
  { unfold find_info, find in Hinfo. change 0 with (Z.of_nat 0) in Hinfo.
    apply find_from_Ok in Hinfo as (k & e & m & -> & _ & _ & Hm & _).
    exists m. by rewrite at_index_nat, Hm. }
  destruct Hmeta as [meta Hmeta]. destruct Himeta as [info_meta Himeta].
  unfold get. unfold bind at 1, const_call at 1. rewrite Hfind.
  unfold bind at 1, const_call at 1. rewrite Hentry, Hblocks.
  unfold get_blocked, get_info_index.
  unfold bind at 1, const_call at 1. rewrite Hentry.
  unfold bind at 1, const_call at 1. rewrite Hmeta.
  unfold bind at 1, const_call at 1. rewrite Hinfo.
  unfold bind at 1, const_call at 1. rewrite Hie.
  unfold bind at 1, const_call at 1. rewrite Himeta.
  unfold bind at 1. cbn [on_stream Stream_seek].
  unfold bind at 1. unfold on_stream at 1. simpl_obj.
  rewrite Stream_read_serves by done. simpl_obj.
  rewrite Hienc, Hicomp.
  unfold bind at 1, ret at 1. unfold bind at 1, ret at 1.
  unfold bind at 1, lift at 1. rewrite Htables. cbn [snd].
  by rewrite process_extents_plain.
Qed.

End PlainExtraction.

Lemma plain_segment_extracted_witness :
  exists p',
    example_get 1 two_info_parser = (Ok payload36, p')
    /\ same_archive two_info_parser p'.
Proof.
  apply (@plain_segment_extracted small_layout shift_cipher example_vault
           stored_zlib 1 0 1 two_info_parser
           (mkPupSegmentEntry 1 false true false false false false false
              133 36 16 3)
           (mkPupSegmentEntry 0 true false false false false false true
              169 6 0 0)
           [] [mkPupExtent 0 16; mkPupExtent 16 16; mkPupExtent 32 4]).
  - vm_compute. reflexivity.
  - vm_compute. reflexivity.
  - reflexivity.
  - reflexivity.
  - reflexivity.
  - vm_compute. reflexivity.
  - vm_compute. reflexivity.
  - reflexivity.
  - reflexivity.
  - vm_compute. reflexivity.
  - vm_compute. reflexivity.
  - split.
    + repeat constructor.
    + repeat constructor; vm_compute; discriminate.
Defined.


(** ** A block longer than the room reserved for it *)

Section PlainOverflow.
Context `{Layout, BlockCipher, CryptoVault, Zlib}.

(** [left_size] after [n] iterations of the loop. *)
Fixpoint left_after (block_size' left_size : Z) (n : nat) : Z :=
  match n with
  | O => left_size
  | S n' => left_after block_size' (left_size - Z.min block_size' left_size) n'
  end.

(** The loop over a plain segment, past the extents that fit. *)
Lemma process_extents_plain_prefix fits : forall rest entry meta left_size
    segment (p : PupParser),
  is_encrypted entry = false -> is_compressed entry = false ->
  extents_fit (contents (s p)) entry fits left_size ->
  fst (process_extents (fits ++ rest) entry meta left_size segment p) =
    fst (process_extents rest entry meta
           (left_after (block_size entry) left_size (length fits))
           (segment ++ padded_blocks (contents (s p)) entry fits left_size) p).
Proof.
  induction fits as [|extent fits IH];
    intros rest entry meta left_size segment p Henc Hcomp [Hserved Hfits].
  - cbn. by rewrite app_nil_r.
  - cbn [app process_extents]. unfold bind at 1.
    destruct (process_block entry meta extent left_size p) as [r p1] eqn:Hpb.
    pose proof (process_block_fst entry meta extent left_size p) as Hfst.
    pose proof (frame_process_block entry meta extent left_size p) as Hframe.
    rewrite Hpb in Hfst, Hframe. cbn [fst snd] in Hfst, Hframe.
    pose proof Hframe as (_ & _ & _ & _ & Hbytes).
    cbn [length cur_sizes] in Hfits.
    apply Forall_cons in Hserved as [Hs Hserved].
    apply Forall2_cons in Hfits as [Hf Hfits].
    pose proof (length_raw_block _ _ _ Hs) as Hlen.
    rewrite Hs in Hfst. unfold decrypted_block in Hfst. rewrite Henc in Hfst.
    rewrite emit_block_fits in Hfst by (done || lia). subst r. cbn [fst snd].
    rewrite IH; [|done|done|split; [by rewrite <- Hbytes|done]].
    rewrite <- Hbytes.
    rewrite <- (process_extents_uniform rest entry meta _ _ p p1 Hframe).
    cbn [length left_after]. unfold padded_blocks.
    cbn [length cur_sizes zip_with concat]. rewrite <- !app_assoc.
    by replace (Z.to_nat (Z.min (block_size entry) left_size)
                - length (raw_block (contents (s p)) entry extent))%nat
      with (Z.to_nat (Z.min (block_size entry) left_size - ext_size extent))
      by lia.
Qed.

(** X1.  In a segment that is neither encrypted nor compressed the room
    reserved for a block is [cur_size = min(block_size, left_size)] bytes,
    and the whole block is copied into it: when the extents before it fit
    and an extent in the stream is longer than the [cur_size] of its
    iteration, the [memcpy] writes past the end of the output, which is
    undefined behaviour. *)
Theorem oversized_plain_block_written_past_output
    (fits : list PupExtent) (extent : PupExtent) (rest : list PupExtent)
    entry meta (left_size : Z) (segment : Buffer) (p : PupParser) :
  is_encrypted entry = false -> is_compressed entry = false ->
  extents_fit (contents (s p)) entry fits left_size ->
  stream_serves (contents (s p))
    (wrap64 (offset entry + ext_offset extent)) (ext_size extent) = true ->
  Z.min (block_size entry)
    (left_after (block_size entry) left_size (length fits))
    < ext_size extent ->
  fst (process_extents (fits ++ extent :: rest) entry meta left_size segment p)
    = Err (Undefined OutOfBoundsWrite).
Proof.
  intros Henc Hcomp Hfit Hserved Hlong.
  rewrite process_extents_plain_prefix by done.
  cbn [process_extents]. unfold bind at 1.
  set (left := left_after (block_size entry) left_size (length fits)) in *.
  destruct (process_block entry meta extent left p) as [r p1] eqn:Hpb.
  pose proof (process_block_fst entry meta extent left p) as Hfst.
  rewrite Hpb in Hfst. cbn [fst] in Hfst.
  pose proof (length_raw_block _ _ _ Hserved) as Hlen.
  rewrite Hserved in Hfst. unfold decrypted_block in Hfst. rewrite Henc in Hfst.
  rewrite emit_block_overflow in Hfst by (done || lia).
  by subst r.
Qed.

End PlainOverflow.

(** The scenario of the specification: two blocks of 16 bytes fit, the third
    is 20 bytes long and 4 bytes are left of the file. *)
Lemma oversized_plain_block_written_past_output_witness :
  fst (@process_extents small_layout example_vault stored_zlib
         ([mkPupExtent 0 16; mkPupExtent 16 16] ++ [mkPupExtent 16 20])
         (mkPupSegmentEntry 0 false true false false false false false
            93 36 16 3)
         encrypted_meta 36 [] scenario_parser)
    = Err (Undefined OutOfBoundsWrite).
Proof.
  apply (@oversized_plain_block_written_past_output small_layout example_vault
           stored_zlib [mkPupExtent 0 16; mkPupExtent 16 16]
           (mkPupExtent 16 20) []
           (mkPupSegmentEntry 0 false true false false false false false
              93 36 16 3)
           encrypted_meta 36 [] scenario_parser).
  - reflexivity.
  - reflexivity.
  - split.
    + repeat constructor.
    + repeat constructor; vm_compute; discriminate.
  - reflexivity.
  - vm_compute. reflexivity.
Defined.

(** ** The blocks of an encrypted segment *)

Section EncryptedBlocks.
Context `{Layout, BlockCipher, CryptoVault, Zlib}.

(** Modelled from the spec: ps4Crypto() is not among the sources.  The
    specification describes what the provider offers for a key with
    explicit key and IV bytes as a raw AES-128-CBC primitive: on a buffer of
    whole blocks it is CBC decryption under that key and IV.  Nothing is
    assumed of a buffer that ends in a partial block. *)
Definition raw_cbc_provider : Prop :=
  forall key iv buf : Buffer,
    length key = 16%nat -> length iv = 16%nat ->
    (length buf mod 16 = 0)%nat ->
    vault_decrypt (mkKey AES_128_CBC "" key iv) buf
      = Ok (cbc_decrypt key iv buf).

(** X17.  The blocks of a target segment go through the crypto provider,
    not through [pup_decrypt]: in a blocked extraction that returns, every
    block of an encrypted entry is [crypto.decrypt] of the bytes of its
    extent under an AES_128_CBC key made of the first 16 bytes of the key
    and of the IV of the target's own meta (the row at [index], not the
    info segment's), each block on its own; the blocks of an entry that is
    not encrypted are the bytes of their extents; and the output is what
    these blocks add, in the order of the extents the info segment lists. *)
Theorem target_blocks_decrypted_by_provider (index : Z) (p p' : PupParser)
    (out : Buffer) :
  get_blocked index p = (Ok out, p') ->
  exists entry meta info_index info_entry info_meta info_buffer digests
         extents blocks,
    at_index (segEntries p) index = Ok entry
    /\ at_index (segMetas p) index = Ok meta
    /\ find_info index p = Ok info_index
    /\ at_index (segEntries p) info_index = Ok info_entry
    /\ at_index (segMetas p) info_index = Ok info_meta
    /\ (if is_encrypted info_entry
        then pup_decrypt
               (slice (offset info_entry) (file_size info_entry)
                  (contents (s p))) info_meta
        else Ok (slice (offset info_entry) (file_size info_entry)
                   (contents (s p))))
       = Ok info_buffer
    /\ fst (read_info info_entry (block_count entry) (mkStream info_buffer 0))
       = Ok (digests, extents)
    /\ Forall2 (fun extent block =>
         (if is_encrypted entry
          then vault_decrypt
                 (mkKey AES_128_CBC "" (take 16 (data_key meta))
                    (take 16 (data_iv meta)))
                 (raw_block (contents (s p)) entry extent)
          else Ok (raw_block (contents (s p)) entry extent)) = Ok block)
         extents blocks
    /\ emit_all entry blocks extents (file_size entry) = Ok out.
Proof.
  intros Hrun.
  apply get_blocked_Ok in Hrun
    as (entry & meta & info_index & info_entry & info_meta & info_buffer
        & [digests extents] & p1 & Hentry & Hmeta & Hinfo & Hie & Him & Hbuf
        & _ & Htables & Hsame & Hrun).
  cbn [snd] in Hrun.
  apply process_extents_Ok in Hrun as (blocks & tail & Hall & Hemit & ->).
  destruct Hsame as (_ & _ & _ & _ & Hbytes). rewrite <- Hbytes in Hall.
  exists entry, meta, info_index, info_entry, info_meta, info_buffer, digests,
    extents, blocks.
  repeat (split; [done|]). split; [|done].
  eapply Forall2_impl; [exact Hall|].
  intros extent block Hblock. cbn beta in Hblock.
  destruct (is_encrypted entry); [exact Hblock|by subst].
Qed.

(** X18.  Where the provider is the raw AES-128-CBC primitive of the
    specification, an encrypted block of whole 16-byte blocks comes out of
    the extraction as the Block Decryptor would leave it: for a 16-byte key
    and IV and an extent in the stream whose size is a multiple of 16 and
    not 0, the provider's decryption of the block is [pup_decrypt] of the
    block under the target's meta, plain CBC, and the iteration adds what
    this plaintext adds. *)
Theorem aligned_block_as_block_decryptor entry meta extent (left_size : Z)
    (p : PupParser) :
  raw_cbc_provider ->
  length (data_key meta) = 16%nat -> length (data_iv meta) = 16%nat ->
  is_encrypted entry = true ->
  stream_serves (contents (s p))
    (wrap64 (offset entry + ext_offset extent)) (ext_size extent) = true ->
  16 <= ext_size extent -> ext_size extent mod 16 = 0 ->
  let raw := raw_block (contents (s p)) entry extent in
  decrypted_block entry meta raw = pup_decrypt raw meta
  /\ pup_decrypt raw meta
     = Ok (cbc_decrypt (data_key meta) (data_iv meta) raw)
  /\ fst (process_block entry meta extent left_size p) =
       match pup_decrypt raw meta with
       | Ok block =>
           match emit_block entry block (cur_zsize_of extent)
                   (Z.min (block_size entry) left_size) with
           | Ok added =>
               Ok (added, left_size - Z.min (block_size entry) left_size)
           | Err e => Err e
           end
       | Err e => Err e
       end.
Proof.
  intros Hraw Hk Hiv Henc Hserved Hsize Hal raw.
  pose proof (length_raw_block _ _ _ Hserved) as Hlen. fold raw in Hlen.
  assert (Hal' : (length raw mod 16 = 0)%nat).
  { apply Nat2Z.inj. rewrite Nat2Z.inj_mod, Hlen. exact Hal. }
  assert (Hdec : decrypted_block entry meta raw
                 = Ok (cbc_decrypt (data_key meta) (data_iv meta) raw)).
  { unfold decrypted_block, segment_key. rewrite Henc.
    rewrite !take_ge by lia. by apply Hraw. }
  assert (Hpup : pup_decrypt raw meta
                 = Ok (cbc_decrypt (data_key meta) (data_iv meta) raw)).
  { by apply pup_decrypt_aligned. }
  split; [by rewrite Hdec, Hpup|]. split; [exact Hpup|].
  rewrite process_block_fst, Hserved. fold raw. by rewrite Hdec, Hpup.
Qed.

End EncryptedBlocks.

(** The stand-in provider is raw CBC on whole blocks. *)
Lemma raw_cbc_vault_provider (C : BlockCipher) :
  @raw_cbc_provider C (raw_cbc_vault C).
Proof.
  intros key iv buf Hk Hiv Hal.
  change (@vault_decrypt (raw_cbc_vault C)) with (@raw_cbc_decrypt C).
  unfold raw_cbc_decrypt. cbn [key_type key_iv key_data].
  by rewrite Hal, Hiv.
Qed.

(** [get_blocked(0)] on the archive with one encrypted segment of two
    blocks. *)
Lemma target_blocks_decrypted_by_provider_witness :
  exists entry meta info_index info_entry info_meta info_buffer digests
         extents blocks,
    at_index (segEntries encrypted_parser) 0 = Ok entry
    /\ at_index (segMetas encrypted_parser) 0 = Ok meta
    /\ find_info 0 encrypted_parser = Ok info_index
    /\ at_index (segEntries encrypted_parser) info_index = Ok info_entry
    /\ at_index (segMetas encrypted_parser) info_index = Ok info_meta
    /\ (if is_encrypted info_entry
        then @pup_decrypt shift_cipher
               (slice (offset info_entry) (file_size info_entry)
                  (contents (s encrypted_parser))) info_meta
        else Ok (slice (offset info_entry) (file_size info_entry)
                   (contents (s encrypted_parser))))
       = Ok info_buffer
    /\ fst (@read_info small_layout info_entry (block_count entry)
              (mkStream info_buffer 0))
       = Ok (digests, extents)
    /\ Forall2 (fun extent block =>
         (if is_encrypted entry
          then @vault_decrypt example_vault
                 (mkKey AES_128_CBC "" (take 16 (data_key meta))
                    (take 16 (data_iv meta)))
                 (raw_block (contents (s encrypted_parser)) entry extent)
          else Ok (raw_block (contents (s encrypted_parser)) entry extent))
         = Ok block)
         extents blocks
    /\ @emit_all small_layout stored_zlib entry blocks extents (file_size entry)
       = Ok (@cbc_decrypt shift_cipher (data_key encrypted_meta)
               (data_iv encrypted_meta) cipher_block
             ++ @cbc_decrypt shift_cipher (data_key encrypted_meta)
                  (data_iv encrypted_meta) cipher_block).
Proof.
  apply (@target_blocks_decrypted_by_provider small_layout shift_cipher
           example_vault stored_zlib 0 encrypted_parser
           (snd (example_get_blocked 0 encrypted_parser))).
  vm_compute. reflexivity.
Defined.

(** The second block of that segment, 16 bytes at offset 16. *)
Lemma aligned_block_as_block_decryptor_witness :
  let raw := raw_block (contents (s encrypted_parser)) encrypted_entry
               (mkPupExtent 16 16) in
  @decrypted_block example_vault encrypted_entry encrypted_meta raw
    = @pup_decrypt shift_cipher raw encrypted_meta
  /\ @pup_decrypt shift_cipher raw encrypted_meta
     = Ok (@cbc_decrypt shift_cipher (data_key encrypted_meta)
             (data_iv encrypted_meta) raw)
  /\ fst (example_process_block encrypted_entry encrypted_meta
            (mkPupExtent 16 16) 16 encrypted_parser) =
       match @pup_decrypt shift_cipher raw encrypted_meta with
       | Ok block =>
           match @emit_block stored_zlib encrypted_entry block
                   (@cur_zsize_of small_layout (mkPupExtent 16 16))
                   (Z.min (block_size encrypted_entry) 16) with
           | Ok added =>
               Ok (added, 16 - Z.min (block_size encrypted_entry) 16)
           | Err e => Err e
           end
       | Err e => Err e
       end.
Proof.
  apply (@aligned_block_as_block_decryptor small_layout shift_cipher
           example_vault stored_zlib encrypted_entry encrypted_meta
           (mkPupExtent 16 16) 16 encrypted_parser
           (raw_cbc_vault_provider shift_cipher)).
  - reflexivity.
  - reflexivity.
  - reflexivity.
  - reflexivity.
  - vm_compute. discriminate.
  - reflexivity.
Defined.
